(** * GdogTAK: the Garmin multi-link decoder and the capture analysis

    A shallow embedding of the functions of [scripts/bridge.py]
    ([decode_varint], [decode_sint32], [semicircles_to_degrees],
    [parse_ble_notification], [generate_cot_xml]) and of
    [tools/btsnoop_compare.py] ([CMD_LABELS], [parse_btsnoop],
    [detect_sessions], [extract_command], [format_hex]), followed by the
    properties of the specification that concern them and by further
    properties of the code.

    Python values are modelled as follows: [bytes] is a list of [byte],
    indexing a byte gives an [int], an unbounded integer [Z]; positions and
    lengths are [nat]; [float] is IEEE binary64 as specified by the
    Standard Library's [SpecFloat]; [str] is [string]; a dictionary is a
    [gmap]; a raised exception is the [Raise] case of [result]. *)

From Stdlib Require Import ZArith Lia SpecFloat.
From Stdlib Require Import Strings.Byte.
From stdpp Require Import base option list strings gmap pretty.
From Equations Require Import Equations.

Local Open Scope Z_scope.

(** ** Exceptions *)

Inductive exn : Set :=
| IndexError
| OverflowError.

Inductive result (A : Type) : Type :=
| Ok (a : A)
| Raise (e : exn).
Arguments Ok {A} a.
Arguments Raise {A} e.

Definition bind {A B : Type} (r : result A) (k : A -> result B) : result B :=
  match r with
  | Ok a => k a
  | Raise e => Raise e
  end.

Notation "'let*' x ':=' r 'in' k" := (bind r (fun x => k))
  (at level 10, x name, r at level 100, k at level 200).

(** ** Bytes *)

Abbreviation bytes := (list byte).

Definition byte_to_Z (b : byte) : Z := Z.of_N (Byte.to_N b).

(** [bytes([z])] for [0 <= z < 256]. *)
Definition byte_of_Z (z : Z) : byte :=
  match Byte.of_N (Z.to_N z) with
  | Some b => b
  | None => x00
  end.

(** [data[i]]: the value of the byte at position [i]; raises out of range. *)
Definition index (data : bytes) (i : nat) : result Z :=
  match data !! i with
  | Some b => Ok (byte_to_Z b)
  | None => Raise IndexError
  end.

(** [range(n)], empty when [n <= 0]. *)
Definition range (n : Z) : list nat := seq 0 (Z.to_nat n).

(** [len(data)] as a Python [int]. *)
Definition len {A : Type} (l : list A) : Z := Z.of_nat (length l).

(** [data[a:b]] for [0 <= a <= b]. *)
Definition slice {A : Type} (l : list A) (a b : nat) : list A :=
  take (b - a) (drop a l).

(** [struct.unpack] of one unsigned integer, big-endian (['>I'], ['>Q'])
    and little-endian (['<H']). *)
Definition be_uint (bs : bytes) : Z :=
  fold_left (fun acc b => acc * 256 + byte_to_Z b) bs 0.

Definition le_uint (bs : bytes) : Z := be_uint (rev bs).

(** Short-circuit [and] and [or] of two conditions that may raise. *)
Definition and_then (a b : result bool) : result bool :=
  let* x := a in if x then b else Ok false.

Definition or_else (a b : result bool) : result bool :=
  let* x := a in if x then Ok true else b.

(** [data[i] == v] and [data[i] != v]. *)
Definition eq_at (data : bytes) (i : nat) (v : Z) : result bool :=
  let* b := index data i in Ok (b =? v).

Definition ne_at (data : bytes) (i : nat) (v : Z) : result bool :=
  let* b := index data i in Ok (negb (b =? v)).

(** [f"{z:02X}"] for a byte value [0 <= z < 256]. *)
Definition hex_digit (d : Z) : string :=
  String.substring (Z.to_nat d) 1 "0123456789ABCDEF".

Definition format_02X (z : Z) : string :=
  hex_digit (z / 16) +:+ hex_digit (z mod 16).

(** ** Floats

    A Python [float] is an IEEE binary64 number; the operations are the
    ones [SpecFloat] specifies, at precision 53 and maximal exponent 1024. *)

Abbreviation float := spec_float.

Definition prec : Z := 53.
Definition emax : Z := 1024.

(** The float nearest to the integer [z] (ties to even); it is how the
    literals [180.0], [2147483648.0], [1_000_000.0] read, and all the
    integers the code compares a float with ([-90], [90], [-180], [180],
    [30]) are floats themselves. *)
Definition float_of_Z (z : Z) : float := binary_normalize prec emax z 0 false.

(** The conversion of an [int] operand of [*] or [/] whose other operand
    is a float: ["OverflowError: int too large to convert to float"] when
    the nearest float is not finite. *)
Definition float_of_int (n : Z) : result float :=
  match float_of_Z n with
  | S754_infinity _ => Raise OverflowError
  | x => Ok x
  end.

Definition float_mul : float -> float -> float := SFmul prec emax.
Definition float_div : float -> float -> float := SFdiv prec emax.
Definition float_le : float -> float -> bool := SFleb.
Definition float_lt : float -> float -> bool := SFltb.

(** ** scripts/bridge.py *)

Module Bridge.

Definition DEVICE_HANDHELD : Z := 0x28.
Definition DEVICE_COLLAR : Z := 0x35.

Record DogPosition : Type := {
  lat : float;
  lon : float;
  timestamp : Z;
  altitude : option float;
  speed : option float;
  heading : option float;
}.

(** The [while] loop of [decode_varint], run on the bytes from position
    [offset + consumed] on: it stops on the first byte whose bit 7 is
    clear, or when the buffer ends. *)
Fixpoint decode_varint_loop (rest : bytes) (result shift : Z) (consumed : nat)
  : Z * nat :=
  match rest with
  | [] => (result, consumed)
  | b :: rest' =>
      let byte := byte_to_Z b in
      let result := Z.lor result (Z.shiftl (Z.land byte 0x7F) shift) in
      let consumed := S consumed in
      if Z.land byte 0x80 =? 0 then (result, consumed)
      else decode_varint_loop rest' result (shift + 7) consumed
  end.

Definition decode_varint (data : bytes) (offset : nat) : Z * nat :=
  decode_varint_loop (drop offset data) 0 0 0%nat.

Definition decode_sint32 (varint : Z) : Z :=
  Z.lxor (Z.shiftr varint 1) (- Z.land varint 1).

Definition semicircles_to_degrees (sc : Z) : result float :=
  let* x := float_of_int sc in
  Ok (float_mul x (float_div (float_of_Z 180) (float_of_Z 2147483648))).

(** [-90 <= lat_deg <= 90 and -180 <= lon_deg <= 180] *)
Definition in_bounds (lat_deg lon_deg : float) : bool :=
  float_le (float_of_Z (-90)) lat_deg && float_le lat_deg (float_of_Z 90)
  && float_le (float_of_Z (-180)) lon_deg && float_le lon_deg (float_of_Z 180).

(** The test of the first loop:
    [data[i] == 0x02 and data[i+1] == DEVICE_COLLAR and data[i+2] == 0x01] *)
Definition collar_marker_at (data : bytes) (i : nat) : result bool :=
  and_then (eq_at data i 0x02)
    (and_then (eq_at data (i + 1) DEVICE_COLLAR) (eq_at data (i + 2) 0x01)).

(** The first loop: [is_collar] after [for i in range(...)] with its
    [break]. *)
Fixpoint find_collar (data : bytes) (idxs : list nat) : result bool :=
  match idxs with
  | [] => Ok false
  | i :: idxs' =>
      let* hit := collar_marker_at data i in
      if hit then Ok true else find_collar data idxs'
  end.

(** The test of the second loop:
    [data[j] == 0x0A and data[j+1] == 0x0C and data[j+2] == 0x08] *)
Definition block_marker_at (data : bytes) (j : nat) : result bool :=
  and_then (eq_at data j 0x0A)
    (and_then (eq_at data (j + 1) 0x0C) (eq_at data (j + 2) 0x08)).

(** One iteration of the second loop: [Ok (Some p)] when it returns the
    position [p], [Ok None] when it goes on to the next [j] (the marker
    is not at [j], or one of the two [continue]s is taken). *)
Definition coordinate_block_at (data : bytes) (j : nat)
  : result (option DogPosition) :=
  let* hit := block_marker_at data j in
  if negb hit then Ok None else
  let '(lat_val, lat_len) := decode_varint data (j + 3) in
  let lat_signed := decode_sint32 lat_val in
  let lon_offset := (j + 3 + lat_len)%nat in
  let* no_lon := or_else (Ok (len data <=? Z.of_nat lon_offset))
                         (ne_at data lon_offset 0x10) in
  if no_lon then Ok None else
  let '(lon_val, lon_len) := decode_varint data (lon_offset + 1) in
  let lon_signed := decode_sint32 lon_val in
  let* lat_deg := semicircles_to_degrees lat_signed in
  let* lon_deg := semicircles_to_degrees lon_signed in
  if negb (in_bounds lat_deg lon_deg) then Ok None else
  let ts_offset := (lon_offset + lon_len + 1)%nat in
  let* has_ts := and_then (Ok (Z.of_nat ts_offset <? len data))
                          (eq_at data ts_offset 0x18) in
  let timestamp :=
    if has_ts then fst (decode_varint data (ts_offset + 1)) else 0 in
  Ok (Some {| lat := lat_deg; lon := lon_deg; timestamp := timestamp;
              altitude := None; speed := None; heading := None |}).

(** The second loop, [for j in range(len(data) - 15)], and the
    [return None] after it. *)
Fixpoint scan_coordinates (data : bytes) (js : list nat)
  : result (option DogPosition) :=
  match js with
  | [] => Ok None
  | j :: js' =>
      let* r := coordinate_block_at data j in
      match r with
      | Some p => Ok (Some p)
      | None => scan_coordinates data js'
      end
  end.

Definition parse_ble_notification (data : bytes)
  : result (option DogPosition) :=
  if len data <? 40 then Ok None else
  let* is_collar := find_collar data (range (Z.min (len data - 3) 20)) in
  if negb is_collar then Ok None else
  scan_coordinates data (range (len data - 15)).

(** *** Cursor-on-Target messages *)

Definition DOG_CALLSIGN : string := "K9-ROVER".
Definition DOG_UID : string := "GARMIN-TT25-001".
Definition DOG_TEAM : string := "CCVFD-SAR".
Definition DOG_ROLE : string := "SAR Canine".

(** The double quote and the newline of the texts. *)
Definition dq : string := String (Ascii.ascii_of_nat 34) EmptyString.
Definition newline : string := String (Ascii.ascii_of_nat 10) EmptyString.

(** [s.zfill(n)] *)
Definition zfill (n : nat) (s : string) : string :=
  String.concat EmptyString (replicate (n - String.length s) "0") +:+ s.

(** [f"{x:.<d>f}"]: the decimal text of the float [x] with [d] digits
    after the point, rounded to the nearest such decimal, to the even
    one in a tie. *)
Definition format_f (d : nat) (x : float) : string :=
  match x with
  | S754_nan => "nan"
  | S754_infinity s => if s then "-inf" else "inf"
  | S754_zero s =>
      (if s then "-" else "") +:+ "0"
      +:+ (if d is O then "" else "." +:+ zfill d "")
  | S754_finite s m e =>
      let scaled :=
        if 0 <=? e then Zpos m * 2 ^ e * 10 ^ Z.of_nat d
        else
          let num := Zpos m * 10 ^ Z.of_nat d in
          let den := 2 ^ (- e) in
          let quo := num / den in
          let rem := num mod den in
          if (den <? 2 * rem) || ((den =? 2 * rem) && Z.odd quo)
          then quo + 1 else quo in
      let digits := zfill (S d) (pretty scaled) in
      let k := (String.length digits - d)%nat in
      (if s then "-" else "") +:+ String.substring 0 k digits
      +:+ (if d is O then "" else "." +:+ String.substring k d digits)
  end.

(** A [datetime] in UTC. *)
Record datetime : Type := {
  year : Z;
  month : Z;
  day : Z;
  hour : Z;
  minute : Z;
  second : Z;
  microsecond : Z;
}.

(** [now.replace(second=s)]: [None] stands for the [ValueError]
    (["second must be in 0..59"]) it raises. *)
Definition replace_second (now : datetime) (s : Z) : option datetime :=
  if (0 <=? s) && (s <=? 59)
  then Some {| year := year now; month := month now; day := day now;
               hour := hour now; minute := minute now; second := s;
               microsecond := microsecond now |}
  else None.

(** [t.strftime("%Y-%m-%dT%H:%M:%S.000Z")], for the years from 1000 on. *)
Definition strftime (t : datetime) : string :=
  pretty (year t) +:+ "-" +:+ zfill 2 (pretty (month t)) +:+ "-"
  +:+ zfill 2 (pretty (day t)) +:+ "T" +:+ zfill 2 (pretty (hour t)) +:+ ":"
  +:+ zfill 2 (pretty (minute t)) +:+ ":" +:+ zfill 2 (pretty (second t))
  +:+ ".000Z".

(** [generate_cot_xml] when the clock reads [now]; [None] stands for the
    [ValueError] of [replace]. *)
Definition generate_cot_xml (now : datetime) (position : DogPosition)
  (callsign uid : string) : option string :=
  let time_str := strftime now in
  match replace_second now (second now + 30) with
  | None => None
  | Some stale =>
    let stale_str := strftime stale in
    Some (String.concat newline [
      "<?xml version=" +:+ dq +:+ "1.0" +:+ dq +:+ " encoding=" +:+ dq +:+
        "UTF-8" +:+ dq +:+ "?>";
      "<event version=" +:+ dq +:+ "2.0" +:+ dq +:+ " ";
      "       uid=" +:+ dq +:+ uid +:+ dq +:+ " ";
      "       type=" +:+ dq +:+ "a-f-G-U-C-I" +:+ dq +:+ " ";
      "       time=" +:+ dq +:+ time_str +:+ dq +:+ " ";
      "       start=" +:+ dq +:+ time_str +:+ dq +:+ " ";
      "       stale=" +:+ dq +:+ stale_str +:+ dq +:+ " ";
      "       how=" +:+ dq +:+ "m-g" +:+ dq +:+ ">";
      "    <point lat=" +:+ dq +:+ format_f 7 (lat position) +:+ dq +:+ " ";
      "           lon=" +:+ dq +:+ format_f 7 (lon position) +:+ dq +:+ " ";
      "           hae=" +:+ dq +:+ "0" +:+ dq +:+ " ";
      "           ce=" +:+ dq +:+ "10.0" +:+ dq +:+ " ";
      "           le=" +:+ dq +:+ "10.0" +:+ dq +:+ "/>";
      "    <detail>";
      "        <contact callsign=" +:+ dq +:+ callsign +:+ dq +:+ "/>";
      "        <remarks>SAR K9 - Garmin TT25 Collar</remarks>";
      "        <__group name=" +:+ dq +:+ DOG_TEAM +:+ dq +:+ " role=" +:+ dq +:+
        DOG_ROLE +:+ dq +:+ "/>";
      "        <track course=" +:+ dq +:+ "0" +:+ dq +:+ " speed=" +:+ dq +:+
        "0" +:+ dq +:+ "/>";
      "        <precisionlocation altsrc=" +:+ dq +:+ "GPS" +:+ dq +:+
        " geopointsrc=" +:+ dq +:+ "GPS" +:+ dq +:+ "/>";
      "    </detail>";
      "</event>"
    ])
  end.

End Bridge.

(** ** tools/btsnoop_compare.py *)

Module BtsnoopCompare.

Definition SESSION_GAP_SECONDS : Z := 30.

Definition CMD_LABELS : gmap (Z * Z) string := list_to_map [
    ((0x02, 0x08), "POLL_CONFIG"); ((0x02, 0x09), "CONFIG");
    ((0x02, 0x0A), "CONFIG_0A"); ((0x02, 0x0B), "CONFIG_0B");
    ((0x02, 0x0C), "CONFIG_0C"); ((0x02, 0x0D), "CONFIG_0D");
    ((0x02, 0x0E), "CONFIG_0E"); ((0x02, 0x10), "CMD_10");
    ((0x02, 0x11), "COLLAR_SLOT"); ((0x02, 0x12), "CMD_12");
    ((0x02, 0x13), "CMD_13"); ((0x02, 0x14), "CMD_14");
    ((0x02, 0x15), "CMD_15"); ((0x02, 0x16), "CONFIG_16");
    ((0x02, 0x17), "CMD_17"); ((0x02, 0x18), "CMD_18");
    ((0x02, 0x19), "CMD_19"); ((0x02, 0x1A), "CMD_1A");
    ((0x02, 0x1B), "CMD_1B"); ((0x02, 0x1C), "CMD_1C");
    ((0x02, 0x1D), "POS_QUERY"); ((0x02, 0x1E), "CMD_1E");
    ((0x02, 0x1F), "CMD_1F"); ((0x02, 0x20), "CMD_20");
    ((0x02, 0x29), "RESP_29"); ((0x02, 0x2A), "CMD_2A");
    ((0x02, 0x2B), "CMD_2B"); ((0x02, 0x2C), "CMD_2C");
    ((0x02, 0x30), "CMD_30"); ((0x02, 0x31), "CMD_31");
    ((0x02, 0x32), "CMD_32"); ((0x02, 0x33), "CMD_33");
    ((0x02, 0x34), "CMD_34"); ((0x02, 0x35), "COLLAR_RELAY");
    ((0x02, 0x36), "CMD_36"); ((0x02, 0x37), "CMD_37");
    ((0x02, 0x38), "CMD_38"); ((0x02, 0x39), "CMD_39");
    ((0x02, 0x3A), "CMD_3A"); ((0x02, 0x3B), "CMD_3B");
    ((0x02, 0x3C), "POSITION_3C"); ((0x02, 0x3D), "CMD_3D");
    ((0x02, 0x3E), "CMD_3E"); ((0x02, 0x40), "CMD_40");
    ((0x02, 0x41), "CMD_41"); ((0x02, 0x42), "CMD_42");
    ((0x02, 0x43), "CMD_43"); ((0x02, 0x44), "DEVICE_REG");
    ((0x02, 0x45), "CMD_45"); ((0x02, 0x50), "CMD_50");
    ((0x02, 0x51), "CMD_51"); ((0x02, 0x52), "DEVICE_LIST");
    ((0x02, 0x53), "CMD_53"); ((0x02, 0x54), "CMD_54");
    ((0x02, 0x55), "CMD_55"); ((0x02, 0x60), "CMD_60");
    ((0x02, 0x70), "CMD_70"); ((0x02, 0x71), "CMD_71");
    ((0x02, 0x72), "CMD_72"); ((0x02, 0x73), "CMD_73");
    ((0x02, 0x74), "CMD_74"); ((0x02, 0x75), "CMD_75");
    ((0x02, 0x76), "CMD_76"); ((0x02, 0x77), "CMD_77");
    ((0x02, 0x78), "CMD_78"); ((0x02, 0x79), "CMD_79");
    ((0x02, 0x7A), "POSITION_7A"); ((0x02, 0x7B), "CMD_7B");
    ((0x00, 0x00), "KEEPALIVE"); ((0x01, 0x40), "HANDSHAKE")
  ].

(** [BTSNOOP_EPOCH + datetime.timedelta(microseconds=ts_us)] for
    [0 <= ts_us]: a [datetime] is kept as its distance from
    [BTSNOOP_EPOCH] in microseconds; the sum is up to [datetime.max],
    9999-12-31 23:59:59.999999, beyond which it raises
    ["OverflowError: date value out of range"]. *)
Definition DATETIME_MAX : Z := 252455615999999999.

Definition epoch_plus_microseconds (ts_us : Z) : result Z :=
  if ts_us <=? DATETIME_MAX then Ok ts_us else Raise OverflowError.

Inductive packet_type : Set := write | notification.

Record packet : Type := {
  type : packet_type;
  timestamp : Z;
  ts_us : Z;
  handle : Z;
  opcode : Z;
  data : bytes;
  is_received : bool;
  raw_size : Z;
}.

(** [f.read(n)] on the rest [f] of the file: the bytes read and the rest. *)
Definition read (f : bytes) (n : Z) : bytes * bytes :=
  (take (Z.to_nat n) f, drop (Z.to_nat n) f).

(** The part of the loop body of [parse_btsnoop] after the two reads:
    [Ok (Some pkt)] when a packet is appended, [Ok None] on [continue] or
    when no branch applies. *)
Definition classify_record (ts_us flags : Z) (data : bytes)
  : result (option packet) :=
  let* ts_dt := epoch_plus_microseconds ts_us in
  let is_received := Z.land flags 0x01 =? 1 in
  if len data <? 10 then Ok None else
  let* hci_type := index data 0 in
  if negb (hci_type =? 0x02) then Ok None else
  let l2cap_cid := le_uint (slice data 7 9) in
  if negb (l2cap_cid =? 0x0004) then Ok None else
  let* att_opcode := index data 9 in
  if (att_opcode =? 0x12) || (att_opcode =? 0x52) then
    if len data <? 12 then Ok None else
    let handle := le_uint (slice data 10 12) in
    let att_data := drop 12 data in
    Ok (Some {| type := write; timestamp := ts_dt; ts_us := ts_us;
                handle := handle; opcode := att_opcode; data := att_data;
                is_received := is_received; raw_size := len att_data |})
  else if att_opcode =? 0x1B then
    if len data <? 12 then Ok None else
    let handle := le_uint (slice data 10 12) in
    let att_data := drop 12 data in
    Ok (Some {| type := notification; timestamp := ts_dt; ts_us := ts_us;
                handle := handle; opcode := att_opcode; data := att_data;
                is_received := is_received; raw_size := len att_data |})
  else Ok None.

(** One turn of the [while True] loop on the rest [f] of the file: [None]
    on [break], else the rest of the file after the record and what the
    record gives. *)
Definition read_record (f : bytes)
  : option (bytes * result (option packet)) :=
  let '(rec_hdr, f) := read f 24 in
  if len rec_hdr <? 24 then None else
  let orig_len := be_uint (slice rec_hdr 0 4) in
  let incl_len := be_uint (slice rec_hdr 4 8) in
  let flags := be_uint (slice rec_hdr 8 12) in
  let drops := be_uint (slice rec_hdr 12 16) in
  let ts_us := be_uint (slice rec_hdr 16 24) in
  let '(data, f) := read f incl_len in
  if len data <? incl_len then None else
  Some (f, classify_record ts_us flags data).

Lemma read_record_shorter (f f' : bytes) (r : result (option packet)) :
  read_record f = Some (f', r) -> (length f' < length f)%nat.
Proof.
  unfold read_record, read. intros H.
  destruct (len (take (Z.to_nat 24) f) <? 24) eqn:E; [discriminate|].
  destruct (len _ <? _) in H; [discriminate|].
  injection H as <- _.
  apply Z.ltb_ge in E. unfold len in E. rewrite length_take in E.
  rewrite !length_drop. lia.
Qed.

(** A value together with the equation that says where it comes from. *)
Definition inspect {A : Type} (x : A) : {y : A | x = y} := exist _ x eq_refl.

(** The [while True] loop: it ends on [break] with the packets so far. *)
Equations? parse_records (f : bytes) (packets : list packet)
  : result (list packet) by wf (length f) lt :=
  parse_records f packets with inspect (read_record f) := {
    | exist _ None _ => Ok packets
    | exist _ (Some (f', Raise e)) _ => Raise e
    | exist _ (Some (f', Ok None)) _ => parse_records f' packets
    | exist _ (Some (f', Ok (Some pkt))) _ =>
        parse_records f' (packets ++ [pkt]) }.
Proof.
  all: eapply read_record_shorter; eassumption.
Defined.

(** [parse_btsnoop] on a file of the given content: what it prints and
    what it returns. *)
Definition parse_btsnoop (filepath : string) (content : bytes)
  : list string * result (list packet) :=
  let '(header, f) := read content 16 in
  if len header <? 16 then
    (["ERROR: File too short for header: " +:+ filepath], Ok [])
  else ([], parse_records f []).

(** [gap] at index [i] of the loop of [detect_sessions]. *)
Definition gap_at (packets : list packet) (i : nat) : result float :=
  match packets !! i, packets !! (i - 1)%nat with
  | Some p, Some q =>
      let* d := float_of_int (ts_us p - ts_us q) in
      Ok (float_div d (float_of_Z 1000000))
  | _, _ => Raise IndexError
  end.

(** The loop of [detect_sessions] over the indices [idxs], from the state
    [(sessions, session_start)]. *)
Fixpoint detect_sessions_loop (packets : list packet) (idxs : list nat)
  (sessions : list (nat * nat)) (session_start : nat)
  : result (list (nat * nat) * nat) :=
  match idxs with
  | [] => Ok (sessions, session_start)
  | i :: idxs' =>
      let* gap := gap_at packets i in
      if float_lt (float_of_Z SESSION_GAP_SECONDS) gap
      then detect_sessions_loop packets idxs'
             (sessions ++ [(session_start, (i - 1)%nat)]) i
      else detect_sessions_loop packets idxs' sessions session_start
  end.

Definition detect_sessions (packets : list packet)
  : result (list (nat * nat)) :=
  match packets with
  | [] => Ok []
  | _ :: _ =>
      let* st := detect_sessions_loop packets
                   (seq 1 (length packets - 1)) [] 0%nat in
      Ok (fst st ++ [(snd st, (length packets - 1)%nat)])
  end.

(** [extract_command] returns
    [(label, is_continuation_frag, cmd_tuple_or_none, frag_info_str)]. *)
Definition extract_command (data : bytes)
  : result (string * bool * option (Z * Z) * string) :=
  if len data <? 2 then Ok ("TOO_SHORT", false, None, "") else
  let* first_byte := index data 0 in
  let* second_byte := index data 1 in
  let is_high_bit := negb (Z.land first_byte 0x80 =? 0) in
  let base := Z.land first_byte 0x7F in
  let seq := second_byte in
  let frag_str :=
    "[0x" +:+ format_02X first_byte +:+ " 0x" +:+ format_02X second_byte
    +:+ "]" in
  let payload := drop 2 data in
  if len payload =? 0 then Ok ("EMPTY_HDR", false, None, frag_str) else
  let* starts := and_then (eq_at payload 0 0x00) (Ok (3 <=? len payload)) in
  if starts then
    let* cmd_cat := index payload 1 in
    let* cmd_id := index payload 2 in
    let cmd_tuple := (cmd_cat, cmd_id) in
    let label :=
      default ("CMD_" +:+ format_02X cmd_cat +:+ "_" +:+ format_02X cmd_id)
              (CMD_LABELS !! cmd_tuple) in
    let label := if is_high_bit then "FRAG>" +:+ label else label in
    Ok (label, false, Some cmd_tuple, frag_str)
  else
    let* p0 := index payload 0 in
    if is_high_bit then
      Ok ("FRAG_DATA[0x" +:+ format_02X p0 +:+ "]", true, None, frag_str)
    else
      Ok ("DATA[0x" +:+ format_02X p0 +:+ "]", false, None, frag_str).

(** *** Hexadecimal dumps *)






End BtsnoopCompare.

(** ** The encoders of the round-trip properties *)

(** Modelled from the spec: the encoder of the "groups-of-7-bits scheme",
    which the repository does not contain (it only decodes): 7 data bits
    per byte, low-order groups first, bit 7 set on all but the last byte. *)
Equations? encode_varint (v : Z) : bytes by wf (Z.to_nat v) lt :=
  encode_varint v with Z_lt_dec v 128 := {
    | left _ => [byte_of_Z v]
    | right _ => byte_of_Z (Z.lor (Z.land v 0x7F) 0x80)
                   :: encode_varint (Z.shiftr v 7) }.
Proof.
  rewrite Z.shiftr_div_pow2 by lia.
  assert (v / 2 ^ 7 < v) by (apply Z.div_lt; lia).
  assert (0 <= v / 2 ^ 7) by (apply Z.div_pos; lia).
  lia.
Qed.

(** Modelled from the spec: the zig-zag encoder of a signed 32-bit
    integer, the inverse the spec's round trip refers to (the repository
    only has the decoder). *)
Definition encode_sint32 (v : Z) : Z :=
  Z.lxor (Z.shiftl v 1) (Z.shiftr v 31).

Import Bridge BtsnoopCompare.

(** ** Vocabulary of the properties *)

(** The byte values [marker] are the bytes of [data] from index [i] on. *)
Definition occurs_at (marker : list Z) (data : bytes) (i : nat) : Prop :=
  byte_to_Z <$> take (length marker) (drop i data) = marker.

#[global] Instance occurs_at_dec marker data i :
  Decision (occurs_at marker data i).
Proof. unfold occurs_at. apply _. Defined.

Definition COLLAR_MARKER : list Z := [0x02; 0x35; 0x01].
Definition BLOCK_MARKER : list Z := [0x0A; 0x0C; 0x08].

(** For a coordinate-block marker at [j]: where the byte after the
    latitude varint is, and what the two varints decode to in degrees. *)
Definition lon_marker_offset (data : bytes) (j : nat) : nat :=
  (j + 3 + snd (decode_varint data (j + 3)))%nat.

Definition block_lat (data : bytes) (j : nat) : result float :=
  semicircles_to_degrees (decode_sint32 (fst (decode_varint data (j + 3)))).

Definition block_lon (data : bytes) (j : nat) : result float :=
  semicircles_to_degrees
    (decode_sint32 (fst (decode_varint data (lon_marker_offset data j + 1)))).

(** The device timestamp of the block at [j]: the varint after a [0x18]
    byte that follows the longitude varint, 0 without such a byte. *)
Definition block_timestamp (data : bytes) (j : nat) : Z :=
  let ts_offset :=
    (lon_marker_offset data j
     + snd (decode_varint data (lon_marker_offset data j + 1)) + 1)%nat in
  if decide (occurs_at [0x18] data ts_offset)
  then fst (decode_varint data (ts_offset + 1))
  else 0.

(** The marker is at [j] and a [0x10] byte follows the latitude varint. *)
Definition structurally_valid (data : bytes) (j : nat) : Prop :=
  occurs_at BLOCK_MARKER data j
  /\ occurs_at [0x10] data (lon_marker_offset data j).

(** What the position [j] of a payload is for the coordinate search: a
    valid block with its position, or a rejected candidate ([None]). *)
Inductive block_at (data : bytes) (j : nat) : option DogPosition -> Prop :=
| block_no_marker :
    ~ occurs_at BLOCK_MARKER data j ->
    block_at data j None
| block_no_longitude :
    occurs_at BLOCK_MARKER data j ->
    ~ occurs_at [0x10] data (lon_marker_offset data j) ->
    block_at data j None
| block_out_of_range (lat_deg lon_deg : float) :
    structurally_valid data j ->
    block_lat data j = Ok lat_deg ->
    block_lon data j = Ok lon_deg ->
    in_bounds lat_deg lon_deg = false ->
    block_at data j None
| block_valid (lat_deg lon_deg : float) :
    structurally_valid data j ->
    block_lat data j = Ok lat_deg ->
    block_lon data j = Ok lon_deg ->
    in_bounds lat_deg lon_deg = true ->
    block_at data j
      (Some {| lat := lat_deg; lon := lon_deg;
               Bridge.timestamp := block_timestamp data j;
               altitude := None; speed := None; heading := None |}).

(** The collar marker starts at one of the indices the first loop of
    [parse_ble_notification] visits. *)
Definition collar_marked (data : bytes) : Prop :=
  exists i : nat,
    Z.of_nat i < Z.min (len data - 3) 20 /\ occurs_at COLLAR_MARKER data i.

(** *** Sessions *)

(** The timestamps are the unsigned 64-bit integers that [parse_btsnoop]
    unpacks with ['>Q']. *)
Definition timestamps_u64 (packets : list packet) : Prop :=
  Forall (fun p => 0 <= ts_us p < 2 ^ 64) packets.

(** The packet at index [i] comes more than 30 seconds, that is
    30_000_000 microseconds, after the packet before it. *)
Definition gap_exceeds (packets : list packet) (i : nat) : Prop :=
  match packets !! (i - 1)%nat, packets !! i with
  | Some p, Some q => 30000000 < ts_us q - ts_us p
  | _, _ => False
  end.

#[global] Instance gap_exceeds_dec packets i : Decision (gap_exceeds packets i).
Proof.
  unfold gap_exceeds.
  destruct (packets !! (i - 1)%nat), (packets !! i); apply _.
Defined.

(** A session is a pair [(start_idx, end_idx)] of indices, both included. *)
Definition in_session (i : nat) (s : nat * nat) : Prop :=
  (s.1 <= i <= s.2)%nat.

Definition same_session (sessions : list (nat * nat)) (a b : nat) : Prop :=
  exists s : nat * nat, s ∈ sessions /\ in_session a s /\ in_session b s.

(** The sessions are non-empty index ranges that follow one another
    without gap nor overlap, from [start] to [n - 1]. *)
Fixpoint contiguous_from (start : nat) (sessions : list (nat * nat)) (n : nat)
  : Prop :=
  match sessions with
  | [] => start = n
  | s :: rest =>
      s.1 = start /\ (s.1 <= s.2)%nat /\ contiguous_from (S s.2) rest n
  end.

(** The sessions that the indices [cuts], at which a new session starts,
    make of the indices from [start] to [last]. *)
Fixpoint sessions_of_cuts (start : nat) (cuts : list nat) (last : nat)
  : list (nat * nat) :=
  match cuts with
  | [] => [(start, last)]
  | c :: cuts' => (start, (c - 1)%nat) :: sessions_of_cuts c cuts' last
  end.

Fixpoint increasing_from (start : nat) (cuts : list nat) (last : nat) : Prop :=
  match cuts with
  | [] => (start <= last)%nat
  | c :: cuts' => (start < c)%nat /\ increasing_from c cuts' last
  end.

(** A packet of which only the timestamp matters. *)
Definition packet_at (t : Z) : packet :=
  {| type := notification; BtsnoopCompare.timestamp := t; ts_us := t;
     handle := 0x21; opcode := 0x1B; data := []; is_received := true;
     raw_size := 0 |}.

(** *** Varints, fragment headers and packets *)

(** The value of the 7-bit groups of [bs], low-order group first. *)
Fixpoint le_base128 (bs : bytes) : Z :=
  match bs with
  | [] => 0
  | b :: bs' => Z.land (byte_to_Z b) 0x7F + 128 * le_base128 bs'
  end.

(** Bit 7 of the byte is set: the varint goes on. *)
Definition continues (b : byte) : Prop := 128 <= byte_to_Z b.

(** [f"[0x{first_byte:02X} 0x{second_byte:02X}]"] *)
Definition frag_header (b0 b1 : byte) : string :=
  "[0x" +:+ format_02X (byte_to_Z b0) +:+ " 0x" +:+ format_02X (byte_to_Z b1)
  +:+ "]".

(** The label of the command [(cat, id)]: the one of the table, or the
    synthesized one. *)
Definition command_label (cat id : byte) : string :=
  default ("CMD_" +:+ format_02X (byte_to_Z cat) +:+ "_"
           +:+ format_02X (byte_to_Z id))
          (CMD_LABELS !! (byte_to_Z cat, byte_to_Z id)).

(** What every packet of [parse_btsnoop] satisfies: the type goes with
    the ATT opcode, the size is the one of the data, the handle is an
    unsigned 16-bit integer and the timestamp an unsigned 64-bit integer
    that [datetime] can hold. *)
Definition packet_wf (p : packet) : Prop :=
  (type p = write /\ (opcode p = 0x12 \/ opcode p = 0x52)
   \/ type p = notification /\ opcode p = 0x1B)
  /\ raw_size p = len (data p)
  /\ 0 <= handle p < 2 ^ 16
  /\ 0 <= ts_us p < 2 ^ 64
  /\ ts_us p <= DATETIME_MAX.

(** The latitude and the longitude of the block at [j], in semicircles. *)
Definition block_lat_semicircles (data : bytes) (j : nat) : Z :=
  decode_sint32 (fst (decode_varint data (j + 3))).

Definition block_lon_semicircles (data : bytes) (j : nat) : Z :=
  decode_sint32 (fst (decode_varint data (lon_marker_offset data j + 1))).

(** ** Example payloads *)

(** The sample coordinate block of the specification,
    [0A0C0880C0D7F10310FFEBF7A70A18C387C99C04]. *)
Definition sample_block : bytes := [
   x0a; x0c; x08; x80; xc0; xd7; xf1; x03; x10; xff;
   xeb; xf7; xa7; x0a; x18; xc3; x87; xc9; x9c; x04 ].

(** The position the sample block decodes to. *)
Definition sample_position : DogPosition :=
  {| lat := S754_finite false 6156100105666560 (-47);
     lon := S754_finite true 8163479739432960 (-46);
     Bridge.timestamp := 1133659075;
     altitude := None; speed := None; heading := None |}.

(** A collar-marked packet of 60 bytes: the collar marker at index 5, a
    marker without longitude byte at 10, a block with latitude -180 at 15
    and the sample block at 25. *)
Definition collar_packet : bytes := [
   x00; x00; x00; x00; x00; x02; x35; x01; x00; x00;
   x0a; x0c; x08; x02; x11; x0a; x0c; x08; xff; xff;
   xff; xff; x0f; x10; x00; x0a; x0c; x08; x80; xc0;
   xd7; xf1; x03; x10; xff; xeb; xf7; xa7; x0a; x18;
   xc3; x87; xc9; x9c; x04; x00; x00; x00; x00; x00;
   x00; x00; x00; x00; x00; x00; x00; x00; x00; x00 ].

(** The same length without the collar marker, the sample block at 25. *)
Definition unmarked_packet : bytes := [
   x00; x00; x00; x00; x00; x00; x00; x00; x00; x00;
   x00; x00; x00; x00; x00; x00; x00; x00; x00; x00;
   x00; x00; x00; x00; x00; x0a; x0c; x08; x80; xc0;
   xd7; xf1; x03; x10; xff; xeb; xf7; xa7; x0a; x18;
   xc3; x87; xc9; x9c; x04; x00; x00; x00; x00; x00;
   x00; x00; x00; x00; x00; x00; x00; x00; x00; x00 ].

(** A collar-marked packet of 40 bytes whose only coordinate block, with
    latitude and longitude of a few semicircles, starts at index 25. *)
Definition late_block_packet : bytes := [
   x00; x00; x00; x00; x00; x02; x35; x01; x00; x00;
   x00; x00; x00; x00; x00; x00; x00; x00; x00; x00;
   x00; x00; x00; x00; x00; x0a; x0c; x08; x02; x10;
   x04; x00; x00; x00; x00; x00; x00; x00; x00; x00 ].

(** A payload whose latitude varint, of 151 bytes, is far beyond the
    floats: the collar marker at 5, the block at 25. *)
Definition overflow_packet : bytes :=
  [x00; x00; x00; x00; x00; x02; x35; x01] ++ replicate 17 x00
  ++ [x0a; x0c; x08] ++ replicate 150 xff ++ [x01; x10; x02]
  ++ replicate 16 x00.

(** A capture with a write to the handle [0x0021] and a notification from
    the handle [0x0025], one second apart, and five stray bytes. *)
Definition capture_header : bytes :=
  [x62; x74; x73; x6e; x6f; x6f; x70; x00;
   x00; x00; x00; x01; x00; x00; x03; xea].

Definition write_record : bytes :=
  [x00; x00; x00; x0f; x00; x00; x00; x0f; x00; x00; x00; x00;
   x00; x00; x00; x00; x00; xe2; xd5; x3c; x4a; x10; x00; x00;
   x02; x40; x00; x0a; x00; x06; x00; x04; x00; x52; x21; x00;
   x00; x07; x00].

Definition notification_record : bytes :=
  [x00; x00; x00; x0e; x00; x00; x00; x0e; x00; x00; x00; x01;
   x00; x00; x00; x00; x00; xe2; xd5; x3c; x4a; x1f; x42; x40;
   x02; x40; x20; x09; x00; x05; x00; x04; x00; x1b; x25; x00;
   x80; x07].

Definition sample_capture : bytes :=
  capture_header ++ write_record ++ notification_record
  ++ [x00; x00; x00; x0e; x00].

(** The packets of [sample_capture]. *)
Definition sample_packets : list packet :=
  [ {| type := write; BtsnoopCompare.timestamp := 63847799653924864;
       ts_us := 63847799653924864; handle := 0x21; opcode := 0x52;
       data := [x00; x07; x00]; is_received := false; raw_size := 3 |};
    {| type := notification;
       BtsnoopCompare.timestamp := 63847799654924864;
       ts_us := 63847799654924864; handle := 0x25; opcode := 0x1B;
       data := [x80; x07]; is_received := true; raw_size := 2 |} ].

(** A capture whose only record is empty and dated beyond the year
    9999. *)
Definition overflow_capture : bytes :=
  capture_header
  ++ [x00; x00; x00; x00; x00; x00; x00; x00; x00; x00; x00; x00;
      x00; x00; x00; x00; xff; xff; xff; xff; xff; xff; xff; xff].


(** A clock reading in the second half of a minute, and one in the
    first. *)
Definition late_reading : datetime :=
  {| year := 2024; month := 12; day := 5; hour := 7; minute := 3;
     second := 45; microsecond := 123456 |}.

Definition early_reading : datetime :=
  {| year := 2024; month := 12; day := 5; hour := 7; minute := 3;
     second := 9; microsecond := 123456 |}.

(** ** Properties *)

Lemma byte_to_Z_range (b : byte) : 0 <= byte_to_Z b < 256.
Proof.
  unfold byte_to_Z. pose proof (Byte.to_N_bounded b). lia.
Qed.

Lemma byte_to_of_Z (z : Z) : 0 <= z < 256 -> byte_to_Z (byte_of_Z z) = z.
Proof.
  intros Hz. unfold byte_to_Z, byte_of_Z.
  destruct (Byte.of_N (Z.to_N z)) as [b|] eqn:E.
  - apply Byte.to_of_N in E. lia.
  - apply Byte.of_N_None_iff in E. lia.
Qed.

(** *** Bit-level facts about one varint group *)

Ltac bitwise :=
  apply Z.bits_inj'; intros ?n ?Hn;
  repeat first
    [ rewrite Z.lor_spec | rewrite Z.land_spec | rewrite Z.lxor_spec
    | rewrite Z.shiftl_spec by lia | rewrite Z.shiftr_spec by lia
    | rewrite Z.testbit_ones by lia | rewrite Z.pow2_bits_eqb by lia
    | rewrite Z.bits_0 ].

Ltac cases_on_index :=
  repeat match goal with
    | |- context [ (?a =? ?b) ] => destruct (Z.eqb_spec a b)
    | |- context [ (?a <=? ?b) ] => destruct (Z.leb_spec a b)
    | |- context [ (?a <? ?b) ] => destruct (Z.ltb_spec a b)
    end.

Lemma low7_range (v : Z) : 0 <= Z.land v 0x7F < 128.
Proof.
  change 0x7F with (Z.ones 7). rewrite Z.land_ones by lia.
  apply Z.mod_pos_bound. lia.
Qed.

Lemma low7_small (v : Z) : 0 <= v < 128 -> Z.land v 0x7F = v.
Proof.
  intros Hv. change 0x7F with (Z.ones 7). rewrite Z.land_ones by lia.
  apply Z.mod_small. lia.
Qed.

Lemma bit7_small (v : Z) : 0 <= v < 128 -> Z.land v 0x80 = 0.
Proof.
  intros Hv. change 0x80 with (2 ^ 7). bitwise.
  cases_on_index; subst; rewrite ?andb_false_r; try reflexivity.
  rewrite andb_true_r. apply Z.bits_above_log2; [lia|].
  destruct (Z.eq_dec v 0) as [->|]; [reflexivity|].
  apply Z.log2_lt_pow2; lia.
Qed.

Lemma continuation_byte_low7 (v : Z) :
  Z.land (Z.lor (Z.land v 0x7F) 0x80) 0x7F = Z.land v 0x7F.
Proof.
  change 0x7F with (Z.ones 7). change 0x80 with (2 ^ 7). bitwise.
  destruct (Z.testbit v n); cases_on_index; subst; simpl; try reflexivity; lia.
Qed.

Lemma continuation_byte_bit7 (v : Z) :
  Z.land (Z.lor (Z.land v 0x7F) 0x80) 0x80 = 0x80.
Proof.
  change 0x7F with (Z.ones 7). change 0x80 with (2 ^ 7). bitwise.
  destruct (Z.testbit v n); cases_on_index; subst; simpl; try reflexivity; lia.
Qed.

Lemma continuation_byte_range (v : Z) :
  0 <= Z.lor (Z.land v 0x7F) 0x80 < 256.
Proof.
  pose proof (low7_range v) as Hr.
  assert (Z.land (Z.land v 0x7F) 0x80 = 0) as Hd by (apply bit7_small; lia).
  rewrite <- Z.lxor_lor by exact Hd.
  rewrite <- Z.add_nocarry_lxor by exact Hd. lia.
Qed.

Lemma split_low7 (v : Z) :
  Z.lor (Z.land v 0x7F) (Z.shiftl (Z.shiftr v 7) 7) = v.
Proof.
  change 0x7F with (Z.ones 7). bitwise.
  destruct (Z.ltb_spec n 7).
  - rewrite (Z.testbit_neg_r _ (n - 7)) by lia.
    destruct (Z.leb_spec 0 n); [|lia].
    rewrite andb_true_r, orb_false_r. reflexivity.
  - rewrite Z.shiftr_spec by lia. rewrite !andb_false_r, orb_false_l.
    f_equal. lia.
Qed.

(** *** Varint round trip *)

Lemma decode_varint_loop_encode (v : Z) :
  0 <= v ->
  forall (rest : bytes) (acc shift : Z) (consumed : nat),
    0 <= shift ->
    decode_varint_loop (encode_varint v ++ rest) acc shift consumed
    = (Z.lor acc (Z.shiftl v shift), (consumed + length (encode_varint v))%nat).
Proof.
  funelim (encode_varint v); intros Hv rest acc shift consumed Hs.
  - simpl. rewrite byte_to_of_Z by lia.
    rewrite bit7_small, low7_small by lia. simpl.
    f_equal. lia.
  - cbn [app decode_varint_loop length].
    rewrite byte_to_of_Z by apply continuation_byte_range.
    rewrite continuation_byte_low7, continuation_byte_bit7. simpl (_ =? _).
    assert (0 <= Z.shiftr v 7) as Hv' by (apply Z.shiftr_nonneg; lia).
    rewrite H by (assumption || lia).
    f_equal; [|lia].
    rewrite <- Z.lor_assoc. f_equal.
    rewrite (Z.add_comm shift 7), <- (Z.shiftl_shiftl _ 7 shift) by lia.
    rewrite <- Z.shiftl_lor, split_low7. reflexivity.
Qed.

Lemma encode_varint_length_bound (v : Z) (k : nat) :
  0 <= v < 2 ^ (7 * Z.of_nat (S k)) -> (length (encode_varint v) <= S k)%nat.
Proof.
  revert v. induction k as [|k IH]; intros v Hv.
  - simp encode_varint. destruct (Z_lt_dec v 128) as [?|Hn]; simpl; [lia|].
    exfalso. apply Hn. change (2 ^ (7 * Z.of_nat 1)) with 128 in Hv. lia.
  - simp encode_varint. destruct (Z_lt_dec v 128) as [?|Hn]; simpl; [lia|].
    apply le_n_S, IH. rewrite Z.shiftr_div_pow2 by lia. split.
    + apply Z.div_pos; lia.
    + apply Z.div_lt_upper_bound; [lia|].
      rewrite <- Z.pow_add_r by lia.
      replace (7 + 7 * Z.of_nat (S k)) with (7 * Z.of_nat (S (S k))) by lia.
      lia.
Qed.

(** C4. Encoding [0 <= v < 2^35] in groups of 7 bits and decoding the
    result with [decode_varint] at offset 0 gives [v] back, and the count
    of consumed bytes is the length of the encoding (at most 5 bytes). *)
Theorem decode_varint_encode_varint (v : Z) :
  0 <= v < 2 ^ 35 ->
  decode_varint (encode_varint v) 0 = (v, length (encode_varint v))
  /\ (length (encode_varint v) <= 5)%nat.
Proof.
  intros Hv. split.
  - unfold decode_varint. rewrite drop_0.
    rewrite <- (app_nil_r (encode_varint v)) at 1.
    rewrite decode_varint_loop_encode by lia.
    rewrite Z.shiftl_0_r, Z.lor_0_l. reflexivity.
  - apply encode_varint_length_bound. exact Hv.
Qed.

Lemma decode_varint_encode_varint_witness :
  decode_varint (encode_varint 300) 0 = (300, length (encode_varint 300))
  /\ (length (encode_varint 300) <= 5)%nat.
Proof. apply (decode_varint_encode_varint 300). lia. Defined.

(** *** Zig-zag round trip *)

Lemma land_1_even (n : Z) : Z.land (2 * n) 1 = 0.
Proof.
  change 1 with (Z.ones 1). rewrite Z.land_ones by lia.
  change (2 ^ 1) with 2. rewrite Z.mul_comm. apply Z.mod_mul. lia.
Qed.

Lemma land_1_odd (n : Z) : Z.land (2 * n + 1) 1 = 1.
Proof.
  change 1 with (Z.ones 1) at 2. rewrite Z.land_ones by lia.
  change (2 ^ 1) with 2. rewrite Z.add_comm, Z.mul_comm, Z.mod_add by lia.
  reflexivity.
Qed.

Lemma encode_sint32_nonneg (v : Z) :
  0 <= v < 2 ^ 31 -> encode_sint32 v = 2 * v.
Proof.
  intros Hv. unfold encode_sint32.
  rewrite Z.shiftr_div_pow2, Z.div_small, Z.lxor_0_r by lia.
  rewrite Z.shiftl_mul_pow2 by lia. lia.
Qed.

Lemma encode_sint32_neg (v : Z) :
  - 2 ^ 31 <= v < 0 -> encode_sint32 v = 2 * (- v - 1) + 1.
Proof.
  intros Hv. unfold encode_sint32.
  rewrite Z.shiftr_div_pow2 by lia.
  replace (v / 2 ^ 31) with (-1)
    by (apply (Z.div_unique v (2 ^ 31) (-1) (v + 2 ^ 31)); lia).
  rewrite Z.lxor_m1_r. unfold Z.lnot.
  rewrite Z.shiftl_mul_pow2 by lia. lia.
Qed.

(** C5. [decode_sint32] inverts the zig-zag encoding on every signed
    32-bit integer. *)
Theorem decode_sint32_encode_sint32 (v : Z) :
  - 2 ^ 31 <= v < 2 ^ 31 -> decode_sint32 (encode_sint32 v) = v.
Proof.
  intros Hv. unfold decode_sint32.
  destruct (Z.neg_nonneg_cases v) as [Hneg|Hpos].
  - rewrite encode_sint32_neg by lia.
    rewrite land_1_odd. rewrite Z.shiftr_div_pow2 by lia.
    change (2 ^ 1) with 2.
    replace ((2 * (- v - 1) + 1) / 2) with (- v - 1)
      by (apply (Z.div_unique _ 2 (- v - 1) 1); lia).
    rewrite Z.lxor_m1_r. unfold Z.lnot. lia.
  - rewrite encode_sint32_nonneg by lia.
    rewrite land_1_even. rewrite Z.shiftr_div_pow2 by lia.
    change (2 ^ 1) with 2.
    rewrite Z.mul_comm, Z.div_mul by lia.
    apply Z.lxor_0_r.
Qed.

Lemma decode_sint32_encode_sint32_witness :
  decode_sint32 (encode_sint32 (-123456789)) = -123456789.
Proof. apply (decode_sint32_encode_sint32 (-123456789)). lia. Defined.

(** *** Command labels *)

(** C1. On a payload [0x00, seq, 0x00, category, id, ...] the decoder
    returns a command start with the key [(category, id)]: with the label
    of the table when the key is in it, and with the synthesized label
    [CMD_<cat>_<id>] (two upper-case hexadecimal digits each) when it is
    not. *)
Theorem extract_command_command_start (seq cat id : byte) (rest : bytes) :
  (forall label : string,
      CMD_LABELS !! (byte_to_Z cat, byte_to_Z id) = Some label ->
      extract_command (x00 :: seq :: x00 :: cat :: id :: rest)
      = Ok (label, false, Some (byte_to_Z cat, byte_to_Z id),
            "[0x00 0x" +:+ format_02X (byte_to_Z seq) +:+ "]"))
  /\ (CMD_LABELS !! (byte_to_Z cat, byte_to_Z id) = None ->
      extract_command (x00 :: seq :: x00 :: cat :: id :: rest)
      = Ok ("CMD_" +:+ format_02X (byte_to_Z cat) +:+ "_"
              +:+ format_02X (byte_to_Z id),
            false, Some (byte_to_Z cat, byte_to_Z id),
            "[0x00 0x" +:+ format_02X (byte_to_Z seq) +:+ "]")).
Proof.
  assert (forall o : option string,
             CMD_LABELS !! (byte_to_Z cat, byte_to_Z id) = o ->
             extract_command (x00 :: seq :: x00 :: cat :: id :: rest)
             = Ok (default ("CMD_" +:+ format_02X (byte_to_Z cat) +:+ "_"
                              +:+ format_02X (byte_to_Z id)) o,
                   false, Some (byte_to_Z cat, byte_to_Z id),
                   "[0x00 0x" +:+ format_02X (byte_to_Z seq) +:+ "]")) as H.
  { intros o Ho. unfold extract_command.
    assert ((len (x00 :: seq :: x00 :: cat :: id :: rest) <? 2) = false) as ->
        by (apply Z.ltb_ge; unfold len; simpl length; lia).
    cbn [drop index lookup list_lookup bind].
    assert ((len (x00 :: cat :: id :: rest) =? 0) = false) as ->
        by (apply Z.eqb_neq; unfold len; simpl length; lia).
    unfold and_then, eq_at. cbn [index lookup list_lookup bind].
    assert ((3 <=? len (x00 :: cat :: id :: rest)) = true) as ->
        by (apply Z.leb_le; unfold len; simpl length; lia).
    change (byte_to_Z x00) with 0. cbn [Z.eqb Z.land negb bind].
    rewrite Ho. reflexivity. }
  split.
  - intros label Hl. apply (H (Some label) Hl).
  - intros Hn. apply (H None Hn).
Qed.

Lemma extract_command_command_start_witness :
  extract_command [x00; x07; x00; x02; x3c; x01]
  = Ok ("POSITION_3C", false, Some (0x02, 0x3C), "[0x00 0x07]")
  /\ extract_command [x00; x07; x00; x03; x3c; x01]
     = Ok ("CMD_03_3C", false, Some (0x03, 0x3C), "[0x00 0x07]").
Proof.
  split.
  - apply (proj1 (extract_command_command_start x07 x02 x3c [x01])).
    vm_compute. reflexivity.
  - apply (proj2 (extract_command_command_start x07 x03 x3c [x01])).
    vm_compute. reflexivity.
Defined.

(** The two labels the specification quotes. *)
Lemma CMD_LABELS_quoted :
  CMD_LABELS !! (0x01, 0x40) = Some "HANDSHAKE"
  /\ CMD_LABELS !! (0x02, 0x3C) = Some "POSITION_3C"
  /\ size CMD_LABELS = 70%nat.
Proof. vm_compute. auto. Qed.

(** *** Capture header *)

(** C7. On a capture of fewer than 16 bytes [parse_btsnoop] reports the
    file as too short for the header and returns no packet. *)
Theorem parse_btsnoop_short_header (filepath : string) (content : bytes) :
  (length content < 16)%nat ->
  parse_btsnoop filepath content
  = (["ERROR: File too short for header: " +:+ filepath], Ok []).
Proof.
  intros Hlen. unfold parse_btsnoop, read.
  assert ((len (take (Z.to_nat 16) content) <? 16) = true) as ->.
  { apply Z.ltb_lt. unfold len. rewrite length_take. lia. }
  reflexivity.
Qed.

Lemma parse_btsnoop_short_header_witness :
  parse_btsnoop "btsnoop_hci.log" [x62; x74; x73; x6e; x6f; x6f; x70; x00]
  = (["ERROR: File too short for header: btsnoop_hci.log"], Ok []).
Proof.
  apply (parse_btsnoop_short_header "btsnoop_hci.log"
           [x62; x74; x73; x6e; x6f; x6f; x70; x00]).
  simpl. lia.
Defined.

(** *** Semicircles *)

(** C8. [semicircles_to_degrees] multiplies by the float [180 / 2^31]
    and maps [2^31] to [180.0], [-2^31] to [-180.0] and [0] to [0.0]. *)
Theorem semicircles_to_degrees_exact :
  semicircles_to_degrees 2147483648 = Ok (float_of_Z 180)
  /\ semicircles_to_degrees (-2147483648) = Ok (float_of_Z (-180))
  /\ semicircles_to_degrees 0 = Ok (S754_zero false)
  /\ (forall sc : Z,
        semicircles_to_degrees sc
        = let* x := float_of_int sc in
          Ok (float_mul x (S754_finite false 6333186975989760 (-76))))
  /\ 6333186975989760 * 2 ^ 31 = 180 * 2 ^ 76.
Proof.
  repeat split; vm_compute; reflexivity.
Qed.

(** *** Markers in a payload *)

Lemma index_lookup (data : bytes) (i : nat) (b : byte) :
  data !! i = Some b -> index data i = Ok (byte_to_Z b).
Proof. intros H. unfold index. rewrite H. reflexivity. Qed.

Lemma occurs_at_1 (data : bytes) (i : nat) (v : Z) :
  occurs_at [v] data i <-> byte_to_Z <$> data !! i = Some v.
Proof.
  unfold occurs_at. simpl length.
  destruct (data !! i) as [a|] eqn:Ha.
  - rewrite (drop_S _ _ _ Ha). cbn.
    split; intros [= ->]; reflexivity.
  - rewrite drop_ge by (apply lookup_ge_None; exact Ha).
    simpl. split; discriminate.
Qed.

Lemma occurs_at_3_lookup (data : bytes) (i : nat) (a b c : byte)
  (v0 v1 v2 : Z) :
  data !! i = Some a -> data !! S i = Some b -> data !! S (S i) = Some c ->
  occurs_at [v0; v1; v2] data i
  <-> byte_to_Z a = v0 /\ byte_to_Z b = v1 /\ byte_to_Z c = v2.
Proof.
  intros Ha Hb Hc. unfold occurs_at. simpl length.
  rewrite (drop_S _ _ _ Ha), (drop_S _ _ _ Hb), (drop_S _ _ _ Hc).
  cbn.
  split; [intros [= -> -> ->] | intros (-> & -> & ->)]; auto.
Qed.

Lemma occurs_at_in_range (marker : list Z) (data : bytes) (i : nat) :
  marker <> [] -> occurs_at marker data i ->
  (i + length marker <= length data)%nat.
Proof.
  unfold occurs_at. intros Hne H.
  apply (f_equal length) in H.
  rewrite length_fmap, length_take, length_drop in H.
  destruct marker; [congruence|]. cbn [length] in *. lia.
Qed.

(** The three-byte tests of the two loops decide [occurs_at]. *)
Lemma marker_test (data : bytes) (i : nat) (v0 v1 v2 : Z) :
  (i + 2 < length data)%nat ->
  and_then (eq_at data i v0)
    (and_then (eq_at data (i + 1) v1) (eq_at data (i + 2) v2))
  = Ok (bool_decide (occurs_at [v0; v1; v2] data i)).
Proof.
  intros Hi.
  destruct (lookup_lt_is_Some_2 data i) as [a Ha]; [lia|].
  destruct (lookup_lt_is_Some_2 data (S i)) as [b Hb]; [lia|].
  destruct (lookup_lt_is_Some_2 data (S (S i))) as [c Hc]; [lia|].
  pose proof (occurs_at_3_lookup data i a b c v0 v1 v2 Ha Hb Hc) as Hocc.
  replace (i + 1)%nat with (S i) by lia.
  replace (i + 2)%nat with (S (S i)) by lia.
  unfold and_then, eq_at.
  rewrite (index_lookup _ _ _ Ha), (index_lookup _ _ _ Hb),
    (index_lookup _ _ _ Hc).
  cbn [bind].
  destruct (Z.eqb_spec (byte_to_Z a) v0);
    [destruct (Z.eqb_spec (byte_to_Z b) v1);
     [destruct (Z.eqb_spec (byte_to_Z c) v2)|]|];
    f_equal; symmetry;
    (apply bool_decide_eq_true || apply bool_decide_eq_false); tauto.
Qed.

Lemma collar_marker_at_spec (data : bytes) (i : nat) :
  (i + 2 < length data)%nat ->
  collar_marker_at data i = Ok (bool_decide (occurs_at COLLAR_MARKER data i)).
Proof. apply marker_test. Qed.

Lemma block_marker_at_spec (data : bytes) (j : nat) :
  (j + 2 < length data)%nat ->
  block_marker_at data j = Ok (bool_decide (occurs_at BLOCK_MARKER data j)).
Proof. apply marker_test. Qed.

(** *** The two loops of [parse_ble_notification] *)

Lemma find_collar_false (data : bytes) (idxs : list nat) :
  Forall (fun i => (i + 2 < length data)%nat) idxs ->
  Forall (fun i => ~ occurs_at COLLAR_MARKER data i) idxs ->
  find_collar data idxs = Ok false.
Proof.
  induction idxs as [|i idxs IH]; intros Hr Hn; [reflexivity|].
  inversion_clear Hr. inversion_clear Hn. simpl.
  rewrite collar_marker_at_spec by assumption.
  rewrite bool_decide_eq_false_2 by assumption. simpl. auto.
Qed.

Lemma find_collar_true (data : bytes) (idxs : list nat) (i : nat) :
  Forall (fun i => (i + 2 < length data)%nat) idxs ->
  i ∈ idxs -> occurs_at COLLAR_MARKER data i ->
  find_collar data idxs = Ok true.
Proof.
  induction idxs as [|k idxs IH]; intros Hr Hin Ho.
  - inversion Hin.
  - inversion_clear Hr. simpl.
    rewrite collar_marker_at_spec by assumption.
    destruct (decide (occurs_at COLLAR_MARKER data k)) as [Hk|Hk].
    + rewrite bool_decide_eq_true_2 by assumption. reflexivity.
    + rewrite bool_decide_eq_false_2 by assumption. simpl.
      apply IH; [assumption| |assumption].
      apply elem_of_cons in Hin as [->|]; [contradiction|assumption].
Qed.

Lemma find_collar_total (data : bytes) (idxs : list nat) :
  Forall (fun i => (i + 2 < length data)%nat) idxs ->
  exists b : bool, find_collar data idxs = Ok b.
Proof.
  induction idxs as [|i idxs IH]; intros Hr; [eexists; reflexivity|].
  inversion_clear Hr. simpl.
  rewrite collar_marker_at_spec by assumption.
  destruct (bool_decide _); simpl; [eexists; reflexivity|auto].
Qed.

Lemma elem_of_range (n : Z) (i : nat) : i ∈ range n <-> Z.of_nat i < n.
Proof.
  unfold range. rewrite list_elem_of_In, in_seq. lia.
Qed.

Lemma range_split (n : Z) (j : nat) :
  Z.of_nat j < n ->
  range n = seq 0 j ++ j :: seq (S j) (Z.to_nat n - S j).
Proof.
  intros Hj. unfold range.
  replace (Z.to_nat n) with (j + S (Z.to_nat n - S j))%nat at 1 by lia.
  rewrite seq_app. reflexivity.
Qed.

Lemma scan_coordinates_none (data : bytes) (js : list nat) :
  Forall (fun j => coordinate_block_at data j = Ok None) js ->
  scan_coordinates data js = Ok None.
Proof.
  induction 1 as [|j js Hj _ IH]; [reflexivity|].
  simpl. rewrite Hj. exact IH.
Qed.

Lemma scan_coordinates_first (data : bytes) (js1 js2 : list nat) (j : nat)
  (p : DogPosition) :
  Forall (fun j' => coordinate_block_at data j' = Ok None) js1 ->
  coordinate_block_at data j = Ok (Some p) ->
  scan_coordinates data (js1 ++ j :: js2) = Ok (Some p).
Proof.
  intros H1 Hj. induction H1 as [|j' js1 Hj' _ IH]; simpl.
  - rewrite Hj. reflexivity.
  - rewrite Hj'. exact IH.
Qed.

(** The guards of [parse_ble_notification], in terms of the payload. *)
Lemma collar_indices_in_range (data : bytes) :
  40 <= len data ->
  Forall (fun i => (i + 2 < length data)%nat)
    (range (Z.min (len data - 3) 20)).
Proof.
  intros Hlen. apply Forall_forall. intros i Hi.
  apply elem_of_range in Hi. unfold len in *. lia.
Qed.

Lemma find_collar_marked (data : bytes) :
  40 <= len data -> collar_marked data ->
  find_collar data (range (Z.min (len data - 3) 20)) = Ok true.
Proof.
  intros Hlen (i & Hi & Ho).
  apply (find_collar_true data _ i);
    [apply collar_indices_in_range; assumption| |assumption].
  apply elem_of_range. exact Hi.
Qed.

Lemma find_collar_unmarked (data : bytes) :
  40 <= len data -> ~ collar_marked data ->
  find_collar data (range (Z.min (len data - 3) 20)) = Ok false.
Proof.
  intros Hlen Hn.
  apply find_collar_false; [apply collar_indices_in_range; assumption|].
  apply Forall_forall. intros i Hi Ho. apply Hn.
  exists i. split; [apply elem_of_range; exact Hi | exact Ho].
Qed.

Lemma parse_ble_notification_marked (data : bytes) :
  40 <= len data -> collar_marked data ->
  parse_ble_notification data = scan_coordinates data (range (len data - 15)).
Proof.
  intros Hlen Hm. unfold parse_ble_notification.
  destruct (Z.ltb_spec (len data) 40); [lia|].
  rewrite find_collar_marked by assumption. reflexivity.
Qed.

(** C9. [parse_ble_notification] returns [None] on a payload shorter than
    40 bytes and on a payload in which the collar marker starts at none
    of the indices below [min(len(payload) - 3, 20)], whatever else the
    payload contains; only a payload that passes both tests reaches the
    coordinate scan. *)
Theorem parse_ble_notification_guards (data : bytes) :
  (len data < 40 \/ ~ collar_marked data ->
   parse_ble_notification data = Ok None)
  /\ (40 <= len data /\ collar_marked data ->
      parse_ble_notification data
      = scan_coordinates data (range (len data - 15))).
Proof.
  split.
  - intros [Hshort|Hn]; unfold parse_ble_notification.
    + destruct (Z.ltb_spec (len data) 40); [reflexivity|lia].
    + destruct (Z.ltb_spec (len data) 40); [reflexivity|].
      rewrite find_collar_unmarked by assumption. reflexivity.
  - intros [Hlen Hm]. apply parse_ble_notification_marked; assumption.
Qed.

(** *** One candidate of the coordinate scan *)

(** The guarded one-byte tests decide [occurs_at] too. *)
Lemma guarded_eq_test (data : bytes) (i : nat) (v : Z) :
  and_then (Ok (Z.of_nat i <? len data)) (eq_at data i v)
  = Ok (bool_decide (occurs_at [v] data i)).
Proof.
  unfold and_then, eq_at, index, len. cbn [bind].
  destruct (Z.ltb_spec (Z.of_nat i) (Z.of_nat (length data))) as [Hlt|Hge].
  - destruct (lookup_lt_is_Some_2 data i) as [b Hb]; [lia|].
    rewrite Hb. cbn [bind]. f_equal.
    destruct (Z.eqb_spec (byte_to_Z b) v) as [He|He]; symmetry;
      [apply bool_decide_eq_true | apply bool_decide_eq_false];
      rewrite occurs_at_1, Hb; cbn; congruence.
  - f_equal. symmetry. apply bool_decide_eq_false.
    rewrite occurs_at_1, (proj2 (lookup_ge_None data i)) by lia.
    cbn. discriminate.
Qed.

Lemma guarded_ne_test (data : bytes) (i : nat) (v : Z) :
  or_else (Ok (len data <=? Z.of_nat i)) (ne_at data i v)
  = Ok (negb (bool_decide (occurs_at [v] data i))).
Proof.
  unfold or_else, ne_at, index, len. cbn [bind].
  destruct (Z.leb_spec (Z.of_nat (length data)) (Z.of_nat i)) as [Hge|Hlt].
  - f_equal. symmetry. apply negb_true_iff, bool_decide_eq_false.
    rewrite occurs_at_1, (proj2 (lookup_ge_None data i)) by lia.
    cbn. discriminate.
  - destruct (lookup_lt_is_Some_2 data i) as [b Hb]; [lia|].
    rewrite Hb. cbn [bind]. do 2 f_equal.
    destruct (Z.eqb_spec (byte_to_Z b) v) as [He|He]; symmetry;
      [apply bool_decide_eq_true | apply bool_decide_eq_false];
      rewrite occurs_at_1, Hb; cbn; congruence.
Qed.

(** The body of the scan computes what [block_at] describes. *)
Lemma coordinate_block_at_spec (data : bytes) (j : nat)
  (r : option DogPosition) :
  (j + 2 < length data)%nat ->
  block_at data j r -> coordinate_block_at data j = Ok r.
Proof.
  intros Hj Hb. unfold coordinate_block_at.
  rewrite block_marker_at_spec by exact Hj.
  destruct (decode_varint data (j + 3)) as [lat_val lat_len] eqn:Elat.
  assert (lon_marker_offset data j = (j + 3 + lat_len)%nat) as Hoff
      by (unfold lon_marker_offset; rewrite Elat; reflexivity).
  rewrite guarded_ne_test.
  destruct (decode_varint data (j + 3 + lat_len + 1))
    as [lon_val lon_len] eqn:Elon.
  rewrite guarded_eq_test.
  inversion Hb as [Hn|Hm Hn|lat_deg lon_deg [Hm Hl] Hlat Hlon Hin
                  |lat_deg lon_deg [Hm Hl] Hlat Hlon Hin]; subst;
    unfold block_lat, block_lon, block_timestamp in *;
    rewrite ?Hoff, ?Elat, ?Elon in *; cbn [fst snd] in *.
  - rewrite bool_decide_eq_false_2 by assumption. reflexivity.
  - rewrite bool_decide_eq_true_2 by assumption. cbn [bind negb].
    rewrite bool_decide_eq_false_2 by assumption. reflexivity.
  - rewrite !bool_decide_eq_true_2 by assumption. cbn [bind negb].
    rewrite Hlat, Hlon. cbn [bind]. rewrite Hin. reflexivity.
  - rewrite !bool_decide_eq_true_2 by assumption. cbn [bind negb].
    rewrite Hlat, Hlon. cbn [bind]. rewrite Hin. cbn [negb].
    do 3 f_equal.
    destruct (decide _) as [Ht|Ht];
      [rewrite bool_decide_eq_true_2 by assumption
      |rewrite bool_decide_eq_false_2 by assumption]; reflexivity.
Qed.

Lemma scanned_index_in_range (data : bytes) (j : nat) :
  Z.of_nat j < len data - 15 -> (j + 2 < length data)%nat.
Proof. unfold len. lia. Qed.

Lemma scan_first_valid (data : bytes) (j : nat) (p : DogPosition) :
  Z.of_nat j < len data - 15 ->
  block_at data j (Some p) ->
  (forall j' : nat, (j' < j)%nat -> block_at data j' None) ->
  scan_coordinates data (range (len data - 15)) = Ok (Some p).
Proof.
  intros Hj Hp Hbefore.
  rewrite (range_split _ j Hj).
  apply scan_coordinates_first.
  - apply Forall_forall. intros j' Hj'.
    apply list_elem_of_In, in_seq in Hj'.
    apply coordinate_block_at_spec; [|apply Hbefore; lia].
    apply scanned_index_in_range. lia.
  - apply coordinate_block_at_spec;
      [apply scanned_index_in_range|]; assumption.
Qed.

Lemma scan_all_rejected (data : bytes) :
  (forall j : nat, Z.of_nat j < len data - 15 -> block_at data j None) ->
  scan_coordinates data (range (len data - 15)) = Ok None.
Proof.
  intros Hall. apply scan_coordinates_none.
  apply Forall_forall. intros j Hj. apply elem_of_range in Hj.
  apply coordinate_block_at_spec;
    [apply scanned_index_in_range; assumption | apply Hall; assumption].
Qed.

(** C2 (amended). On a payload of at least 40 bytes that carries the
    collar marker, [parse_ble_notification] returns the position of the
    first index [j < len(payload) - 15] that holds a valid block when all
    the indices before it are rejected candidates (no marker, no [0x10]
    after the latitude, or degrees out of range), and it returns [None]
    when every index below [len(payload) - 15] is a rejected candidate. *)
Theorem parse_ble_notification_first_valid (data : bytes) :
  40 <= len data -> collar_marked data ->
  (forall (j : nat) (p : DogPosition),
      Z.of_nat j < len data - 15 ->
      block_at data j (Some p) ->
      (forall j' : nat, (j' < j)%nat -> block_at data j' None) ->
      parse_ble_notification data = Ok (Some p))
  /\ ((forall j : nat, Z.of_nat j < len data - 15 -> block_at data j None) ->
      parse_ble_notification data = Ok None).
Proof.
  intros Hlen Hm.
  rewrite parse_ble_notification_marked by assumption.
  split.
  - intros j p. apply scan_first_valid.
  - apply scan_all_rejected.
Qed.

(** C10. The scan visits the indices below [len(payload) - 15] only: a
    payload in which the coordinate marker occurs at no index below
    [len(payload) - 15] gives no position. *)
Theorem parse_ble_notification_scan_bound (data : bytes) :
  (forall j : nat,
      occurs_at BLOCK_MARKER data j -> len data - 15 <= Z.of_nat j) ->
  parse_ble_notification data = Ok None.
Proof.
  intros Hlate. unfold parse_ble_notification.
  destruct (Z.ltb_spec (len data) 40) as [Hshort|Hlen]; [reflexivity|].
  destruct (find_collar_total data (range (Z.min (len data - 3) 20)))
    as [[|] ->]; [apply collar_indices_in_range; exact Hlen| |reflexivity].
  cbn [bind negb]. apply scan_all_rejected.
  intros j Hj. apply block_no_marker. intros Ho.
  apply Hlate in Ho. lia.
Qed.

(** *** The properties on the example payloads *)

Ltac rejected_candidate :=
  first
    [ apply block_no_marker; vm_compute; discriminate
    | apply block_no_longitude;
      [vm_compute; reflexivity | vm_compute; discriminate]
    | eapply block_out_of_range;
      [split; vm_compute; reflexivity | vm_compute; reflexivity ..] ].

Lemma collar_packet_marked : collar_marked collar_packet.
Proof. exists 5%nat. split; vm_compute; reflexivity. Qed.

Lemma unmarked_packet_unmarked : ~ collar_marked unmarked_packet.
Proof.
  intros (i & Hi & Ho).
  do 20 (destruct i as [|i]; [vm_compute in Ho; discriminate|]).
  unfold len in Hi. simpl length in Hi. lia.
Qed.

Lemma sample_block_valid :
  block_at sample_block 0 (Some sample_position).
Proof.
  apply (block_valid sample_block 0
           (S754_finite false 6156100105666560 (-47))
           (S754_finite true 8163479739432960 (-46)));
    [split|..]; vm_compute; reflexivity.
Qed.

Lemma collar_packet_block_25 : block_at collar_packet 25 (Some sample_position).
Proof.
  apply (block_valid collar_packet 25
           (S754_finite false 6156100105666560 (-47))
           (S754_finite true 8163479739432960 (-46)));
    [split|..]; vm_compute; reflexivity.
Qed.

Lemma collar_packet_rejected_before (j : nat) :
  (j < 25)%nat -> block_at collar_packet j None.
Proof.
  intros Hj. do 25 (destruct j as [|j]; [rejected_candidate|]). lia.
Qed.

Lemma parse_ble_notification_first_valid_witness :
  parse_ble_notification collar_packet = Ok (Some sample_position).
Proof.
  apply (proj1 (parse_ble_notification_first_valid collar_packet
                  ltac:(vm_compute; discriminate) collar_packet_marked)
           25%nat).
  - vm_compute. reflexivity.
  - exact collar_packet_block_25.
  - exact collar_packet_rejected_before.
Defined.

(** C2 as stated fails: the sample block alone is a payload whose first
    marker is structurally valid and in range, and no position comes out
    of it, because it is shorter than 40 bytes. *)
Lemma parse_ble_notification_first_valid_counterexample :
  ~ (forall (data : bytes) (j : nat) (p : DogPosition),
        block_at data j (Some p) ->
        (forall j' : nat, (j' < j)%nat -> block_at data j' None) ->
        parse_ble_notification data = Ok (Some p)).
Proof.
  intros H.
  specialize (H sample_block 0%nat sample_position sample_block_valid).
  assert (parse_ble_notification sample_block = Ok (Some sample_position))
    as Hp by (apply H; intros j' Hj'; lia).
  vm_compute in Hp. discriminate.
Qed.

Lemma parse_ble_notification_guards_witness :
  parse_ble_notification unmarked_packet = Ok None
  /\ parse_ble_notification sample_block = Ok None
  /\ parse_ble_notification collar_packet
     = scan_coordinates collar_packet (range (len collar_packet - 15)).
Proof.
  split; [|split].
  - apply (proj1 (parse_ble_notification_guards unmarked_packet)).
    right. exact unmarked_packet_unmarked.
  - apply (proj1 (parse_ble_notification_guards sample_block)).
    left. vm_compute. reflexivity.
  - apply (proj2 (parse_ble_notification_guards collar_packet)).
    split; [vm_compute; discriminate | exact collar_packet_marked].
Defined.

Lemma late_block_packet_block_25 :
  exists p : DogPosition, block_at late_block_packet 25 (Some p).
Proof.
  eexists.
  apply (block_valid late_block_packet 25
           (S754_finite false 6333186975989760 (-76))
           (S754_finite false 6333186975989760 (-75)));
    [split|..]; vm_compute; reflexivity.
Qed.

Lemma late_block_packet_markers (j : nat) :
  occurs_at BLOCK_MARKER late_block_packet j ->
  len late_block_packet - 15 <= Z.of_nat j.
Proof.
  intros Ho.
  do 25 (destruct j as [|j]; [vm_compute in Ho; discriminate|]).
  unfold len. simpl length. lia.
Qed.

Lemma parse_ble_notification_scan_bound_witness :
  parse_ble_notification late_block_packet = Ok None.
Proof.
  apply (parse_ble_notification_scan_bound late_block_packet).
  exact late_block_packet_markers.
Defined.

(** *** Binary64 arithmetic on normal numbers *)

Lemma digits2_pos_bounds (p : positive) :
  2 ^ (Zpos (digits2_pos p) - 1) <= Zpos p < 2 ^ Zpos (digits2_pos p).
Proof.
  induction p as [p IH|p IH|]; cbn [digits2_pos].
  - rewrite Pos2Z.inj_succ.
    replace (Z.succ (Z.pos (digits2_pos p)) - 1)
      with (Z.succ (Z.pos (digits2_pos p) - 1)) by lia.
    rewrite !Z.pow_succ_r by lia. lia.
  - rewrite Pos2Z.inj_succ.
    replace (Z.succ (Z.pos (digits2_pos p)) - 1)
      with (Z.succ (Z.pos (digits2_pos p) - 1)) by lia.
    rewrite !Z.pow_succ_r by lia. lia.
  - simpl. lia.
Qed.

Lemma Zdigits2_unique (m k : Z) :
  2 ^ (k - 1) <= m < 2 ^ k -> 0 < m -> Zdigits2 m = k.
Proof.
  intros Hk Hm. destruct m as [|p|p]; try lia. cbn [Zdigits2].
  pose proof (digits2_pos_bounds p) as Hd.
  set (d := Zpos (digits2_pos p)) in *.
  assert (0 < d) by (subst d; lia).
  destruct (Z.lt_trichotomy d k) as [Hlt|[Heq|Hgt]]; [|exact Heq|].
  - assert (2 ^ d <= 2 ^ (k - 1)) by (apply Z.pow_le_mono_r; lia). lia.
  - assert (0 <= k).
    { destruct (Z.lt_ge_cases k 0) as [Hneg|]; [|lia].
      rewrite (Z.pow_neg_r 2 k) in Hk by lia. lia. }
    assert (2 ^ k <= 2 ^ (d - 1)) by (apply Z.pow_le_mono_r; lia). lia.
Qed.

Lemma iter_pos_nat {A : Type} (f : A -> A) (p : positive) (x : A) :
  SpecFloat.iter_pos f p x = Nat.iter (Pos.to_nat p) f x.
Proof.
  revert x. induction p as [p IH|p IH|]; intros x; cbn [SpecFloat.iter_pos].
  - rewrite !IH, Pos2Nat.inj_xI.
    rewrite <- Nat.iter_add, <- Nat.iter_succ_r. f_equal. lia.
  - rewrite !IH, Pos2Nat.inj_xO.
    rewrite <- Nat.iter_add. f_equal. lia.
  - reflexivity.
Qed.

Lemma shr_1_m (mrs : shr_record) :
  0 <= shr_m mrs -> shr_m (shr_1 mrs) = shr_m mrs / 2.
Proof.
  destruct mrs as [m r s]. cbn [shr_m]. intros Hm.
  rewrite <- Z.div2_div.
  destruct m as [|[p|p|]|p]; try reflexivity; lia.
Qed.

Lemma shr_iter_m (n : nat) (mrs : shr_record) :
  0 <= shr_m mrs ->
  shr_m (Nat.iter n shr_1 mrs) = shr_m mrs / 2 ^ Z.of_nat n.
Proof.
  intros Hm. induction n as [|n IH].
  - simpl. rewrite Z.div_1_r. reflexivity.
  - rewrite Nat.iter_succ, shr_1_m.
    + rewrite IH, Nat2Z.inj_succ, Z.pow_succ_r by lia.
      rewrite Z.div_div by lia. f_equal. lia.
    + rewrite IH. apply Z.div_pos; lia.
Qed.

Lemma shr_record_of_loc_m (m : Z) (l : location) :
  shr_m (shr_record_of_loc m l) = m.
Proof. destruct l as [|[]]; reflexivity. Qed.

Lemma loc_of_shr_record_of_loc (m : Z) (l : location) :
  loc_of_shr_record (shr_record_of_loc m l) = l.
Proof. destruct l as [|[]]; reflexivity. Qed.

Lemma round_nearest_even_bounds (m : Z) (l : location) :
  m <= round_nearest_even m l <= m + 1.
Proof.
  destruct l as [|[]]; cbn [round_nearest_even]; try lia.
  destruct (Z.even m); lia.
Qed.

(** The first step of a rounding: a mantissa of [53 + n] bits loses its
    [n] low bits. *)
Lemma shr_fexp_normal (m e n : Z) (l : location) :
  0 <= n -> 2 ^ (52 + n) <= m < 2 ^ (53 + n) -> -1074 <= e + n ->
  exists mrs : shr_record,
    shr_fexp prec emax m e l = (mrs, e + n)
    /\ shr_m mrs = m / 2 ^ n
    /\ (n = 0 -> mrs = shr_record_of_loc m l).
Proof.
  intros Hn Hm He.
  assert (0 < m) by (assert (0 < 2 ^ (52 + n)) by (apply Z.pow_pos_nonneg; lia); lia).
  unfold shr_fexp.
  rewrite (Zdigits2_unique m (53 + n))
    by (replace (53 + n - 1) with (52 + n) by lia; assumption).
  replace (fexp prec emax (53 + n + e) - e) with n
    by (unfold fexp, emin, prec, emax; lia).
  unfold shr. destruct n as [|p|p]; [| |lia].
  - eexists. split; [f_equal; lia|]. split; [|reflexivity].
    rewrite shr_record_of_loc_m, Z.div_1_r. reflexivity.
  - eexists. split; [reflexivity|]. split; [|discriminate].
    rewrite iter_pos_nat, shr_iter_m, shr_record_of_loc_m
      by (rewrite shr_record_of_loc_m; lia).
    rewrite positive_nat_Z. reflexivity.
Qed.

(** A rounding that neither underflows nor overflows: the mantissa [m] of
    [53 + n] bits becomes [m / 2^n] or its successor, at the exponent
    [e + n], or [2^52] at the next exponent when the successor has 54
    bits. *)
Lemma binary_round_aux_normal (s : bool) (m e n : Z) (l : location) :
  0 <= n -> 2 ^ (52 + n) <= m < 2 ^ (53 + n) ->
  -1074 <= e + n -> e + n + 1 <= 971 ->
  exists (m' : positive) (e' : Z),
    binary_round_aux prec emax s m e l = S754_finite s m' e'
    /\ 2 ^ 52 <= Zpos m' < 2 ^ 53
    /\ ((e' = e + n
         /\ m / 2 ^ n <= Zpos m' <= m / 2 ^ n + 1
         /\ (n = 0 -> Zpos m' = round_nearest_even m l))
        \/ (e' = e + n + 1 /\ Zpos m' = 2 ^ 52
            /\ m / 2 ^ n = 2 ^ 53 - 1
            /\ (n = 0 -> round_nearest_even m l = 2 ^ 53))).
Proof.
  intros Hn Hm Hlo Hhi.
  destruct (shr_fexp_normal m e n l Hn Hm Hlo) as (mrs & E1 & Hq & Hexact).
  unfold binary_round_aux. rewrite E1.
  assert (2 ^ 52 <= m / 2 ^ n < 2 ^ 53) as Hqr.
  { assert (0 < 2 ^ n) by (apply Z.pow_pos_nonneg; lia).
    rewrite !Z.pow_add_r in Hm by lia. split.
    - apply Z.div_le_lower_bound; lia.
    - apply Z.div_lt_upper_bound; lia. }
  pose proof (round_nearest_even_bounds (shr_m mrs) (loc_of_shr_record mrs))
    as Hr.
  set (m2 := round_nearest_even (shr_m mrs) (loc_of_shr_record mrs)) in *.
  rewrite Hq in Hr.
  destruct (Z.lt_ge_cases m2 (2 ^ 53)) as [Hsmall|Hcarry].
  - destruct (shr_fexp_normal m2 (e + n) 0 loc_Exact) as (mrs2 & E2 & Hq2 & _);
      [lia | change (52 + 0) with 52; change (53 + 0) with 53; lia | lia |].
    rewrite E2, Hq2, Z.div_1_r.
    destruct m2 as [|m'|m'] eqn:Em2; [lia| |lia].
    exists m', (e + n). split; [|split; [lia|left]].
    + replace (e + n + 0 <=? emax - prec) with true
        by (symmetry; apply Z.leb_le; unfold emax, prec; lia).
      f_equal. lia.
    + split; [reflexivity|]. split; [lia|].
      intros ->. subst m2. rewrite <- Em2, Hexact by reflexivity.
      rewrite shr_record_of_loc_m, loc_of_shr_record_of_loc. reflexivity.
  - assert (m2 = 2 ^ 53) as Em2 by lia.
    destruct (shr_fexp_normal m2 (e + n) 1 loc_Exact) as (mrs2 & E2 & Hq2 & _);
      [lia | rewrite Em2; change (52 + 1) with 53; change (53 + 1) with 54; lia
      | lia |].
    rewrite E2, Hq2, Em2.
    change (2 ^ 53 / 2 ^ 1) with (Zpos (2 ^ 52)).
    exists (2 ^ 52)%positive, (e + n + 1). split; [|split; [lia|right]].
    + replace (e + n + 1 <=? emax - prec) with true
        by (symmetry; apply Z.leb_le; unfold emax, prec; lia).
      reflexivity.
    + split; [reflexivity|]. split; [reflexivity|]. split; [lia|].
      intros ->. rewrite <- Em2. subst m2. rewrite Hexact by reflexivity.
      rewrite shr_record_of_loc_m, loc_of_shr_record_of_loc. reflexivity.
Qed.

Lemma pos_iter_xO (p d : positive) :
  Zpos (Pos.iter xO p d) = Zpos p * 2 ^ Zpos d.
Proof.
  induction d as [|d IH] using Pos.peano_ind.
  - simpl. lia.
  - rewrite Pos.iter_succ, Pos2Z.inj_xO, IH, Pos2Z.inj_succ,
      Z.pow_succ_r by lia.
    lia.
Qed.

(** The float of a non-zero integer below [2^1023] in absolute value,
    given by its sign [s] and its absolute value [p] of [k] bits. *)
Lemma binary_round_integer (s : bool) (p : positive) (k : Z) :
  1 <= k <= 1023 -> 2 ^ (k - 1) <= Zpos p < 2 ^ k ->
  exists (mx : positive) (ex : Z),
    binary_round prec emax s p 0 = S754_finite s mx ex
    /\ 2 ^ 52 <= Zpos mx < 2 ^ 53
    /\ (k <= 53 -> ex = k - 53 /\ Zpos mx = Zpos p * 2 ^ (53 - k))
    /\ (53 < k -> k - 53 <= ex <= k - 52).
Proof.
  intros Hk Hp. unfold binary_round.
  assert (Zpos (digits2_pos p) = k) as ->
      by (apply (Zdigits2_unique (Zpos p) k); lia).
  unfold shl_align.
  destruct (Z.le_gt_cases k 53) as [Hsmall|Hlarge].
  - assert (exists mz : positive,
               (let '(mz, ez) :=
                  match fexp prec emax (k + 0) - 0 with
                  | Z.neg d => (Pos.iter xO p d, fexp prec emax (k + 0))
                  | _ => (p, 0)
                  end in binary_round_aux prec emax s (Zpos mz) ez loc_Exact)
               = binary_round_aux prec emax s (Zpos mz) (k - 53) loc_Exact
               /\ Zpos mz = Zpos p * 2 ^ (53 - k)) as (mz & -> & Hmz).
    { replace (fexp prec emax (k + 0)) with (k - 53)
        by (unfold fexp, emin, prec, emax; lia).
      destruct (k - 53 - 0) as [|d|d] eqn:Ed; [| lia |].
      - exists p. replace (k - 53) with 0 by lia.
        replace (53 - k) with 0 by lia. split; [reflexivity | lia].
      - exists (Pos.iter xO p d). split; [reflexivity|].
        rewrite pos_iter_xO. f_equal. f_equal. lia. }
    assert (2 ^ 52 <= Zpos mz < 2 ^ 53) as Hr.
    { rewrite Hmz.
      assert (2 ^ 52 = 2 ^ (k - 1) * 2 ^ (53 - k)) as ->
          by (rewrite <- Z.pow_add_r by lia; f_equal; lia).
      assert (2 ^ 53 = 2 ^ k * 2 ^ (53 - k)) as ->
          by (rewrite <- Z.pow_add_r by lia; f_equal; lia).
      assert (0 < 2 ^ (53 - k)) by (apply Z.pow_pos_nonneg; lia). nia. }
    destruct (binary_round_aux_normal s (Zpos mz) (k - 53) 0 loc_Exact)
      as (m' & e' & -> & Hm' & [(-> & _ & Hex)|(_ & _ & _ & Hc)]);
      [lia | exact Hr | lia | lia | |].
    + exists m', (k - 53 + 0). split; [reflexivity|]. split; [exact Hm'|].
      split; [|lia]. intros _. split; [lia|].
      rewrite Hex by reflexivity. cbn [round_nearest_even]. exact Hmz.
    + specialize (Hc eq_refl). cbn [round_nearest_even] in Hc. lia.
  - replace (fexp prec emax (k + 0) - 0) with (k - 53)
      by (unfold fexp, emin, prec, emax; lia).
    destruct (k - 53) as [|d|d] eqn:Ed; [lia| |lia].
    destruct (binary_round_aux_normal s (Zpos p) 0 (k - 53) loc_Exact)
      as (m' & e' & E & Hm' & He');
      [lia | | lia | lia |].
    { replace (52 + (k - 53)) with (k - 1) by lia.
      replace (53 + (k - 53)) with k by lia. exact Hp. }
    exists m', e'. split; [exact E|]. split; [exact Hm'|].
    split; [lia|]. intros _. destruct He' as [(-> & _)|(-> & _)]; lia.
Qed.

Lemma float_of_Z_million :
  float_of_Z 1000000 = S754_finite false 8589934592000000 (-33).
Proof. vm_compute. reflexivity. Qed.

Lemma float_of_Z_30 :
  float_of_Z 30 = S754_finite false 8444249301319680 (-48).
Proof. vm_compute. reflexivity. Qed.

(** The quotient of a normal float by [1_000_000.0]: with [q] the
    integer quotient of the mantissas, of [53 + n] bits, the result has
    the mantissa [q / 2^n] or its successor. *)
Lemma float_div_million (s : bool) (mx : positive) (ex : Z) :
  2 ^ 52 <= Zpos mx < 2 ^ 53 -> -52 <= ex <= 12 ->
  exists (m' : positive) (e' n : Z),
    float_div (S754_finite s mx ex) (float_of_Z 1000000)
    = S754_finite s m' e'
    /\ (n = 0 \/ n = 1)
    /\ 2 ^ (52 + n) <= Zpos mx * 2 ^ 53 / 8589934592000000 < 2 ^ (53 + n)
    /\ Zpos mx * 2 ^ 53 / 8589934592000000 < 9444732965739291
    /\ ((e' = ex - 20 + n
         /\ Zpos mx * 2 ^ 53 / 8589934592000000 / 2 ^ n <= Zpos m'
            <= Zpos mx * 2 ^ 53 / 8589934592000000 / 2 ^ n + 1)
        \/ (e' = ex - 20 + n + 1 /\ Zpos m' = 2 ^ 52
            /\ Zpos mx * 2 ^ 53 / 8589934592000000 / 2 ^ n = 2 ^ 53 - 1)).
Proof.
  intros Hmx Hex. rewrite float_of_Z_million.
  unfold float_div, SFdiv, SFdiv_core_binary.
  rewrite (Zdigits2_unique (Zpos mx) 53) by (change (53 - 1) with 52; lia).
  change (Zdigits2 8589934592000000) with 53.
  replace (Z.min (fexp prec emax (53 + ex - (53 + -33))) (ex - -33))
    with (ex - 20) by (unfold fexp, emin, prec, emax; lia).
  replace (ex - -33 - (ex - 20)) with 53 by lia.
  rewrite Z.shiftl_mul_pow2 by lia.
  set (q := Zpos mx * 2 ^ 53 / 8589934592000000).
  assert (Z.div_eucl (Zpos mx * 2 ^ 53) 8589934592000000
          = (q, (Zpos mx * 2 ^ 53) mod 8589934592000000)) as ->.
  { unfold q, Z.div, Z.modulo.
    destruct (Z.div_eucl _ _). reflexivity. }
  rewrite xorb_false_r.
  assert (2 ^ 52 <= q < 9444732965739291) as Hq.
  { unfold q. split.
    - apply Z.div_le_lower_bound; lia.
    - apply Z.div_lt_upper_bound; lia. }
  assert (exists n : Z, (n = 0 \/ n = 1) /\ 2 ^ (52 + n) <= q < 2 ^ (53 + n))
    as (n & Hn & Hqn).
  { destruct (Z.lt_ge_cases q (2 ^ 53)); [exists 0 | exists 1];
      (split; [auto|]); simpl Z.add; lia. }
  destruct (binary_round_aux_normal s q (ex - 20) n
              (new_location 8589934592000000
                 ((Zpos mx * 2 ^ 53) mod 8589934592000000)))
    as (m' & e' & E & _ & He'); [lia | exact Hqn | lia | lia |].
  exists m', e', n. split; [exact E|]. split; [exact Hn|].
  split; [exact Hqn|]. split; [lia|].
  destruct He' as [(-> & Hb & _)|(-> & Hc & Hd & _)]; [left|right]; auto.
Qed.

Lemma float_lt_30_finite (m' : positive) (e' : Z) :
  float_lt (float_of_Z 30) (S754_finite false m' e')
  = (-48 <? e') || ((e' =? -48) && (8444249301319680 <? Zpos m')).
Proof.
  rewrite float_of_Z_30. unfold float_lt, SFltb, SFcompare.
  change (Pos.compare_cont Eq 8444249301319680 m')
    with (Z.compare 8444249301319680 (Zpos m')).
  destruct (Z.compare_spec (-48) e'), (Z.compare_spec 8444249301319680 (Zpos m'));
    cases_on_index; simpl; try reflexivity; lia.
Qed.

Lemma positive_bits (p : positive) :
  Zpos p < 2 ^ 64 ->
  1 <= Zpos (digits2_pos p) <= 64
  /\ 2 ^ (Zpos (digits2_pos p) - 1) <= Zpos p < 2 ^ Zpos (digits2_pos p).
Proof.
  intros Hp. pose proof (digits2_pos_bounds p) as Hd.
  split; [|exact Hd]. split; [lia|].
  destruct (Z.le_gt_cases (Zpos (digits2_pos p)) 64) as [|Hgt]; [assumption|].
  assert (2 ^ 64 <= 2 ^ (Zpos (digits2_pos p) - 1))
    by (apply Z.pow_le_mono_r; lia).
  lia.
Qed.

(** The test [gap > SESSION_GAP_SECONDS] on the float
    [d / 1_000_000.0] is the comparison [30_000_000 < d] of integers, for
    every difference [d] of two unsigned 64-bit timestamps. *)
Lemma gap_test (d : Z) :
  - 2 ^ 64 < d < 2 ^ 64 ->
  exists x : float,
    float_of_int d = Ok x
    /\ float_lt (float_of_Z 30) (float_div x (float_of_Z 1000000))
       = (30000000 <? d).
Proof.
  intros Hd.
  destruct (Z.eq_dec d 30000000) as [->|Hne].
  { eexists. split; [vm_compute; reflexivity|]. vm_compute. reflexivity. }
  destruct d as [|p|p].
  - eexists. split; [vm_compute; reflexivity|]. vm_compute. reflexivity.
  - destruct (positive_bits p) as [Hk Hp]; [lia|].
    set (k := Zpos (digits2_pos p)) in *.
    destruct (binary_round_integer false p k ltac:(lia) Hp)
      as (mx & ex & E & Hmx & Hsmall & Hlarge).
    unfold float_of_int.
    change (float_of_Z (Zpos p)) with (binary_round prec emax false p 0).
    rewrite E. eexists. split; [reflexivity|].
    destruct (float_div_million false mx ex Hmx)
      as (m' & e' & n & -> & Hn & Hqn & Hqb & He'); [lia|].
    rewrite float_lt_30_finite.
    set (q := Zpos mx * 2 ^ 53 / 8589934592000000) in *.
    assert (53 < k \/ (26 <= k <= 53) \/ k = 25 \/ k = 24 \/ k <= 23)
      as [Hc|[Hc|[Hc|[Hc|Hc]]]] by lia.
    + assert (2 ^ 53 <= 2 ^ (k - 1)) by (apply Z.pow_le_mono_r; lia).
      destruct Hn as [-> | ->], He' as [(-> & _)|(-> & _)];
        cases_on_index; simpl; try reflexivity; lia.
    + assert (2 ^ 25 <= 2 ^ (k - 1)) by (apply Z.pow_le_mono_r; lia).
      destruct Hn as [-> | ->], He' as [(-> & _)|(-> & _)];
        cases_on_index; simpl; try reflexivity; lia.
    + destruct (Hsmall ltac:(lia)) as [-> Emx]. rewrite Hc in *.
      change (2 ^ (25 - 1)) with 16777216 in Hp.
      change (2 ^ 25) with 33554432 in Hp.
      change (2 ^ (53 - 25)) with 268435456 in Emx.
      unfold q in *. rewrite Emx in *. clear q.
      change (2 ^ 53) with 9007199254740992 in *.
      change (2 ^ 52) with 4503599627370496 in *.
      destruct Hn as [-> | ->];
        [change (2 ^ (52 + 0)) with 4503599627370496 in *;
         change (2 ^ (53 + 0)) with 9007199254740992 in *;
         change (2 ^ 0) with 1 in *
        |change (2 ^ (52 + 1)) with 9007199254740992 in *;
         change (2 ^ (53 + 1)) with 18014398509481984 in *;
         change (2 ^ 1) with 2 in *];
        destruct He' as [(-> & Hb)|(-> & Hb1 & Hb2)];
        cases_on_index; simpl; try reflexivity;
        Z.to_euclidean_division_equations; lia.
    + rewrite Hc in *.
      change (2 ^ (24 - 1)) with 8388608 in Hp.
      change (2 ^ 24) with 16777216 in Hp.
      change (2 ^ 53) with 9007199254740992 in *.
      change (2 ^ 52) with 4503599627370496 in *.
      destruct (Hsmall ltac:(lia)) as [-> _].
      destruct Hn as [-> | ->];
        [change (2 ^ 0) with 1 in *|change (2 ^ 1) with 2 in *];
        destruct He' as [(-> & Hb)|(-> & Hb1 & Hb2)];
        cases_on_index; simpl; try reflexivity;
        Z.to_euclidean_division_equations; lia.
    + assert (2 ^ k <= 2 ^ 23) by (apply Z.pow_le_mono_r; lia).
      change (2 ^ 23) with 8388608 in *.
      change (2 ^ 53) with 9007199254740992 in *.
      destruct (Hsmall ltac:(lia)) as [-> _].
      destruct Hn as [-> | ->];
        [change (2 ^ 0) with 1 in *|change (2 ^ 1) with 2 in *];
        destruct He' as [(-> & Hb)|(-> & Hb1 & Hb2)];
        cases_on_index; simpl; try reflexivity;
        Z.to_euclidean_division_equations; lia.
  - destruct (positive_bits p) as [Hk Hp]; [lia|].
    destruct (binary_round_integer true p (Zpos (digits2_pos p))
                ltac:(lia) Hp)
      as (mx & ex & E & Hmx & Hsmall & Hlarge).
    unfold float_of_int.
    change (float_of_Z (Zneg p)) with (binary_round prec emax true p 0).
    rewrite E. eexists. split; [reflexivity|].
    destruct (float_div_million true mx ex Hmx)
      as (m' & e' & n & -> & _); [lia|].
    rewrite float_of_Z_30. reflexivity.
Qed.

(** *** Sessions *)

Lemma gap_at_test (packets : list packet) (i : nat) :
  timestamps_u64 packets -> (1 <= i < length packets)%nat ->
  exists g : float,
    gap_at packets i = Ok g
    /\ float_lt (float_of_Z SESSION_GAP_SECONDS) g
       = bool_decide (gap_exceeds packets i).
Proof.
  intros Hu Hi. unfold gap_at.
  destruct (lookup_lt_is_Some_2 packets i) as [p Hp]; [lia|].
  destruct (lookup_lt_is_Some_2 packets (i - 1)) as [q Hq]; [lia|].
  rewrite Hp, Hq.
  pose proof (proj1 (Forall_forall _ _) Hu p
                (list_elem_of_lookup_2 _ _ _ Hp)) as Hpr.
  pose proof (proj1 (Forall_forall _ _) Hu q
                (list_elem_of_lookup_2 _ _ _ Hq)) as Hqr.
  cbv beta in Hpr, Hqr.
  destruct (gap_test (ts_us p - ts_us q)) as (x & -> & Hx); [lia|].
  cbn [bind]. eexists. split; [reflexivity|].
  unfold SESSION_GAP_SECONDS. rewrite Hx.
  destruct (Z.ltb_spec 30000000 (ts_us p - ts_us q)); symmetry;
    [apply bool_decide_eq_true | apply bool_decide_eq_false];
    unfold gap_exceeds; rewrite Hp, Hq; lia.
Qed.

(** The loop of [detect_sessions] closes a session at each index where
    the gap exceeds 30 seconds. *)
Lemma detect_sessions_loop_spec (packets : list packet) (idxs : list nat) :
  timestamps_u64 packets ->
  Forall (fun i => (1 <= i < length packets)%nat) idxs ->
  forall (sessions : list (nat * nat)) (session_start : nat),
  exists st : list (nat * nat) * nat,
    detect_sessions_loop packets idxs sessions session_start = Ok st
    /\ forall last : nat,
        st.1 ++ [(st.2, last)]
        = sessions
          ++ sessions_of_cuts session_start
               (filter (gap_exceeds packets) idxs) last.
Proof.
  intros Hu Hr. induction Hr as [|i idxs Hi _ IH]; intros sessions start.
  - eexists. split; [reflexivity|]. intros last. reflexivity.
  - cbn [detect_sessions_loop].
    destruct (gap_at_test packets i Hu Hi) as (g & -> & Etest).
    cbn [bind]. rewrite Etest.
    destruct (decide (gap_exceeds packets i)) as [Hg|Hg].
    + rewrite bool_decide_eq_true_2 by exact Hg.
      destruct (IH (sessions ++ [(start, (i - 1)%nat)]) i) as (st & -> & Hst).
      exists st. split; [reflexivity|]. intros last.
      rewrite Hst, filter_cons_True by exact Hg.
      rewrite <- app_assoc. reflexivity.
    + rewrite bool_decide_eq_false_2 by exact Hg.
      destruct (IH sessions start) as (st & -> & Hst).
      exists st. split; [reflexivity|]. intros last.
      rewrite Hst, filter_cons_False by exact Hg. reflexivity.
Qed.

Lemma detect_sessions_spec (packets : list packet) :
  timestamps_u64 packets -> packets <> [] ->
  detect_sessions packets
  = Ok (sessions_of_cuts 0
          (filter (gap_exceeds packets) (seq 1 (length packets - 1)))
          (length packets - 1)).
Proof.
  intros Hu Hne.
  assert (Forall (fun i => (1 <= i < length packets)%nat)
            (seq 1 (length packets - 1))) as Hr.
  { apply Forall_forall. intros i Hi.
    apply list_elem_of_In, in_seq in Hi. lia. }
  destruct (detect_sessions_loop_spec packets _ Hu Hr [] 0%nat)
    as (st & Est & Hst).
  unfold detect_sessions. destruct packets as [|p0 packets']; [congruence|].
  rewrite Est. cbn [bind]. rewrite Hst. reflexivity.
Qed.

Lemma increasing_from_weaken (a b : nat) (cuts : list nat) (last : nat) :
  (a <= b)%nat -> increasing_from b cuts last -> increasing_from a cuts last.
Proof.
  intros Hab. destruct cuts as [|c cuts]; simpl; [lia|].
  intros [Hc Hrest]. split; [lia|exact Hrest].
Qed.

Lemma increasing_from_filter (P : nat -> Prop) `{forall i, Decision (P i)}
  (a k : nat) :
  increasing_from a (filter P (seq (S a) k)) (a + k).
Proof.
  revert a. induction k as [|k IH]; intros a; [simpl; lia|].
  cbn [seq]. destruct (decide (P (S a))) as [Hp|Hp].
  - rewrite filter_cons_True by exact Hp. split; [lia|].
    replace (a + S k)%nat with (S a + k)%nat by lia. apply IH.
  - rewrite filter_cons_False by exact Hp.
    apply (increasing_from_weaken a (S a)); [lia|].
    replace (a + S k)%nat with (S a + k)%nat by lia. apply IH.
Qed.

Lemma increasing_from_le (start : nat) (cuts : list nat) (last : nat) :
  increasing_from start cuts last -> (start <= last)%nat.
Proof.
  revert start. induction cuts as [|c cuts IH]; intros start; simpl; [lia|].
  intros [Hlt Hinc]. specialize (IH c Hinc). lia.
Qed.

Lemma increasing_from_elem (start : nat) (cuts : list nat) (last c : nat) :
  increasing_from start cuts last -> c ∈ cuts -> (start < c <= last)%nat.
Proof.
  revert start. induction cuts as [|c' cuts IH]; intros start Hinc Hin.
  - inversion Hin.
  - destruct Hinc as [Hlt Hinc].
    apply elem_of_cons in Hin as [->|Hin].
    + pose proof (increasing_from_le _ _ _ Hinc). lia.
    + specialize (IH c' Hinc Hin). lia.
Qed.

Lemma sessions_of_cuts_bounds (start : nat) (cuts : list nat) (last : nat)
  (s : nat * nat) :
  increasing_from start cuts last ->
  s ∈ sessions_of_cuts start cuts last ->
  (start <= s.1 /\ s.1 <= s.2 <= last)%nat.
Proof.
  revert start. induction cuts as [|c cuts IH]; intros start Hinc Hin.
  - apply list_elem_of_singleton in Hin as ->. simpl in *. lia.
  - pose proof (increasing_from_elem start (c :: cuts) last c Hinc
                  ltac:(left)) as Hc.
    destruct Hinc as [Hlt Hinc]. cbn [sessions_of_cuts] in Hin.
    apply elem_of_cons in Hin as [->|Hin]; [simpl; lia|].
    specialize (IH c Hinc Hin). lia.
Qed.

Lemma sessions_of_cuts_contiguous (start : nat) (cuts : list nat)
  (last : nat) :
  increasing_from start cuts last ->
  contiguous_from start (sessions_of_cuts start cuts last) (S last).
Proof.
  revert start. induction cuts as [|c cuts IH]; intros start Hinc.
  - simpl in *. auto.
  - destruct Hinc as [Hlt Hinc]. cbn [sessions_of_cuts contiguous_from fst snd].
    split; [reflexivity|]. split; [lia|].
    replace (S (c - 1)) with c by lia. apply IH. exact Hinc.
Qed.

(** Two consecutive indices are in one session, unless a session starts
    at the second. *)
Lemma sessions_of_cuts_same_session (start : nat) (cuts : list nat)
  (last i : nat) :
  increasing_from start cuts last -> (start < i <= last)%nat ->
  same_session (sessions_of_cuts start cuts last) (i - 1) i <-> i ∉ cuts.
Proof.
  revert start. induction cuts as [|c cuts IH]; intros start Hinc Hi.
  - split; [intros _ Hin; inversion Hin|]. intros _.
    exists (start, last). split; [left|]. unfold in_session. simpl. lia.
  - pose proof (increasing_from_elem start (c :: cuts) last c Hinc
                  ltac:(left)) as Hc.
    destruct Hinc as [Hlt Hinc]. cbn [sessions_of_cuts].
    destruct (Nat.lt_trichotomy i c) as [Hic|[->|Hic]].
    + split.
      * intros _ Hin. apply elem_of_cons in Hin as [->|Hin]; [lia|].
        pose proof (increasing_from_elem c cuts last i Hinc Hin). lia.
      * intros _. exists (start, (c - 1)%nat).
        split; [left|]. unfold in_session. simpl. lia.
    + split; [|intros Hn; exfalso; apply Hn; left].
      intros (s & Hs & Ha & Hb) _. unfold in_session in *.
      apply elem_of_cons in Hs as [->|Hs]; [simpl in *; lia|].
      pose proof (sessions_of_cuts_bounds c cuts last s Hinc Hs). lia.
    + rewrite not_elem_of_cons, <- (IH c Hinc) by lia.
      split.
      * intros (s & Hs & Ha & Hb). split; [lia|].
        apply elem_of_cons in Hs as [->|Hs];
          [unfold in_session in *; simpl in *; lia|].
        exists s. auto.
      * intros (_ & s & Hs & Ha & Hb). exists s. split; [right; exact Hs|auto].
Qed.

Lemma contiguous_from_lower (start : nat) (sessions : list (nat * nat))
  (n k : nat) (s : nat * nat) :
  contiguous_from start sessions n -> sessions !! k = Some s ->
  (start <= s.1)%nat.
Proof.
  revert start k. induction sessions as [|s0 sessions IH]; intros start k Hc Hk.
  - discriminate.
  - destruct Hc as (Hs & Hle & Hc). destruct k as [|k].
    + injection Hk as ->. lia.
    + specialize (IH (S s0.2) k Hc Hk). lia.
Qed.

(** Every index of a contiguous list of sessions is in one session, and
    in one only. *)
Lemma contiguous_from_unique (start : nat) (sessions : list (nat * nat))
  (n i : nat) :
  contiguous_from start sessions n -> (start <= i < n)%nat ->
  exists! k : nat,
    exists s : nat * nat, sessions !! k = Some s /\ in_session i s.
Proof.
  revert start. induction sessions as [|s0 sessions IH]; intros start Hc Hi.
  - simpl in Hc. lia.
  - destruct Hc as (Hs & Hle & Hc).
    destruct (Nat.le_gt_cases i s0.2) as [Hin|Hout].
    + exists 0%nat. split.
      * exists s0. split; [reflexivity|]. unfold in_session. lia.
      * intros [|k] (s & Hk & Hs'); [reflexivity|]. exfalso.
        pose proof (contiguous_from_lower _ _ _ k s Hc Hk).
        unfold in_session in Hs'. lia.
    + destruct (IH (S s0.2) Hc) as (k & (s & Hk & Hs') & Huniq); [lia|].
      exists (S k). split.
      * exists s. auto.
      * intros [|k'] (s' & Hk' & Hs'').
        -- injection Hk' as ->. unfold in_session in Hs''. lia.
        -- f_equal. apply Huniq. exists s'. auto.
Qed.

Lemma detect_sessions_cuts_increasing (packets : list packet) :
  packets <> [] ->
  increasing_from 0
    (filter (gap_exceeds packets) (seq 1 (length packets - 1)))
    (length packets - 1).
Proof.
  intros Hne.
  pose proof (increasing_from_filter (gap_exceeds packets) 0
                (length packets - 1)) as H.
  exact H.
Qed.

Lemma timestamps_u64_packet_at (ts : list Z) :
  Forall (fun t => 0 <= t < 2 ^ 64) ts -> timestamps_u64 (packet_at <$> ts).
Proof.
  intros Hts. unfold timestamps_u64. rewrite Forall_fmap.
  eapply Forall_impl; [exact Hts|]. intros t Ht. exact Ht.
Qed.

Lemma detect_sessions_same_session (packets : list packet) (i : nat) :
  timestamps_u64 packets -> (1 <= i < length packets)%nat ->
  exists sessions : list (nat * nat),
    detect_sessions packets = Ok sessions
    /\ (~ same_session sessions (i - 1) i <-> gap_exceeds packets i).
Proof.
  intros Hu Hi.
  assert (packets <> []) as Hne by (intros ->; simpl in Hi; lia).
  rewrite (detect_sessions_spec packets Hu Hne).
  eexists. split; [reflexivity|].
  pose proof (sessions_of_cuts_same_session 0 _ (length packets - 1) i
                (detect_sessions_cuts_increasing packets Hne) ltac:(lia))
    as Hss.
  rewrite Hss, list_elem_of_filter, list_elem_of_In, in_seq.
  destruct (decide (gap_exceeds packets i)) as [Hg|Hg].
  - split; [intros _; exact Hg|]. intros _ Hn. apply Hn.
    split; [exact Hg|lia].
  - split; [|contradiction]. intros Hnn. exfalso. apply Hnn.
    intros [Hg' _]. contradiction.
Qed.

(** C3. For packets with unsigned 64-bit microsecond timestamps,
    [detect_sessions] returns sessions in which two consecutive packets
    are apart if and only if the second comes more than 30_000_000
    microseconds after the first; packets with the timestamps
    [0, 1_000_000, 40_000_000, 41_000_000] give the sessions [(0, 1)] and
    [(2, 3)]. *)
Theorem detect_sessions_gap_iff (packets : list packet) :
  timestamps_u64 packets ->
  (exists sessions : list (nat * nat),
      detect_sessions packets = Ok sessions
      /\ forall i : nat,
          (1 <= i < length packets)%nat ->
          ~ same_session sessions (i - 1) i <-> gap_exceeds packets i)
  /\ (ts_us <$> packets = [0; 1000000; 40000000; 41000000] ->
      detect_sessions packets = Ok [(0, 1); (2, 3)]%nat).
Proof.
  intros Hu. split.
  - destruct packets as [|p0 packets'] eqn:E.
    + exists []. split; [reflexivity|]. intros i Hi. simpl in Hi. lia.
    + rewrite <- E in *.
      assert (packets <> []) as Hne by (rewrite E; discriminate).
      exists (sessions_of_cuts 0
                (filter (gap_exceeds packets) (seq 1 (length packets - 1)))
                (length packets - 1)).
      split; [apply detect_sessions_spec; assumption|].
      intros i Hi.
      destruct (detect_sessions_same_session packets i Hu Hi)
        as (sessions & Hs & Hiff).
      rewrite (detect_sessions_spec packets Hu Hne) in Hs.
      injection Hs as <-. exact Hiff.
  - intros Hts.
    destruct packets as [|p0 [|p1 [|p2 [|p3 [|p4 ?]]]]]; try discriminate.
    injection Hts as H0 H1 H2 H3.
    unfold detect_sessions.
    cbn [length Nat.sub seq detect_sessions_loop gap_at lookup list_lookup].
    rewrite H0, H1, H2, H3. vm_compute. reflexivity.
Qed.

Lemma detect_sessions_gap_iff_witness :
  detect_sessions (packet_at <$> [0; 1000000; 40000000; 41000000])
  = Ok [(0, 1); (2, 3)]%nat.
Proof.
  apply (proj2 (detect_sessions_gap_iff
                  (packet_at <$> [0; 1000000; 40000000; 41000000])
                  ltac:(apply timestamps_u64_packet_at;
                        repeat (apply List.Forall_cons; [lia|]);
                        apply List.Forall_nil))).
  reflexivity.
Defined.

(** C6. [detect_sessions] returns no session for no packet, the session
    [(0, 0)] for one packet, and for any packets with unsigned 64-bit
    timestamps a list of non-empty index ranges that follow one another
    from 0 to the last index without gap nor overlap, so that every
    packet index is in one session and in one only. *)
Theorem detect_sessions_partition :
  detect_sessions [] = Ok []
  /\ (forall p : packet, detect_sessions [p] = Ok [(0, 0)]%nat)
  /\ (forall packets : list packet,
         timestamps_u64 packets ->
         exists sessions : list (nat * nat),
           detect_sessions packets = Ok sessions
           /\ contiguous_from 0 sessions (length packets)
           /\ forall i : nat,
               (i < length packets)%nat ->
               exists! k : nat,
                 exists s : nat * nat,
                   sessions !! k = Some s /\ in_session i s).
Proof.
  split; [reflexivity|]. split; [intros p; reflexivity|].
  intros packets Hu.
  destruct packets as [|p0 packets'] eqn:E.
  - exists []. split; [reflexivity|]. split; [reflexivity|].
    intros i Hi. simpl in Hi. lia.
  - rewrite <- E in *.
    assert (packets <> []) as Hne by (rewrite E; discriminate).
    assert (0 < length packets)%nat as Hlen by (rewrite E; simpl; lia).
    eexists. split; [apply detect_sessions_spec; assumption|].
    pose proof (sessions_of_cuts_contiguous 0 _ _
                  (detect_sessions_cuts_increasing packets Hne)) as Hc.
    replace (S (length packets - 1)) with (length packets) in Hc by lia.
    split; [exact Hc|].
    intros i Hi. apply (contiguous_from_unique 0 _ (length packets)).
    + exact Hc.
    + lia.
Qed.

Lemma detect_sessions_partition_witness :
  exists sessions : list (nat * nat),
    detect_sessions (packet_at <$> [5; 7; 70000000]) = Ok sessions
    /\ contiguous_from 0 sessions 3
    /\ forall i : nat,
        (i < 3)%nat ->
        exists! k : nat,
          exists s : nat * nat, sessions !! k = Some s /\ in_session i s.
Proof.
  assert (timestamps_u64 (packet_at <$> [5; 7; 70000000])) as Hu.
  { apply timestamps_u64_packet_at.
    repeat (apply List.Forall_cons; [lia|]). apply List.Forall_nil. }
  exact (proj2 (proj2 detect_sessions_partition) _ Hu).
Defined.

(** ** Further properties *)

(** *** Varints *)

Lemma decode_varint_loop_consumed (rest : bytes) (result shift : Z)
  (consumed : nat) :
  (consumed + Nat.min 1 (length rest)
   <= snd (decode_varint_loop rest result shift consumed)
   <= consumed + length rest)%nat.
Proof.
  revert result shift consumed.
  induction rest as [|b rest IH]; intros result shift consumed.
  - simpl. lia.
  - cbn [decode_varint_loop].
    destruct (Z.land (byte_to_Z b) 128 =? 0).
    + simpl. lia.
    + specialize (IH (Z.lor result (Z.shiftl (Z.land (byte_to_Z b) 127) shift))
                     (shift + 7) (S consumed)).
      cbn [length]. lia.
Qed.

Lemma lor_shiftl_add (acc v shift : Z) :
  0 <= shift -> 0 <= acc < 2 ^ shift -> 0 <= v ->
  Z.lor acc (Z.shiftl v shift) = acc + v * 2 ^ shift.
Proof.
  intros Hs Ha Hv. rewrite Z.shiftl_mul_pow2 by lia.
  assert (Z.land acc (v * 2 ^ shift) = 0) as Hland.
  { destruct (Z.eq_dec acc 0) as [->|Hne]; [apply Z.land_0_l|].
    apply Z.bits_inj'. intros n Hn. rewrite Z.land_spec, Z.bits_0.
    destruct (Z.lt_ge_cases n shift) as [Hlt|Hge].
    - rewrite Z.mul_pow2_bits_low by lia. apply andb_false_r.
    - rewrite (Z.bits_above_log2 acc n); [reflexivity|lia|].
      apply Z.lt_le_trans with shift; [|lia].
      apply Z.log2_lt_pow2; lia. }
  rewrite <- Z.lxor_lor by exact Hland.
  rewrite <- Z.add_nocarry_lxor by exact Hland. reflexivity.
Qed.

Lemma le_base128_bounds (bs : bytes) :
  0 <= le_base128 bs < 2 ^ (7 * Z.of_nat (length bs)).
Proof.
  induction bs as [|b bs IH]; [simpl; lia|].
  cbn [le_base128 length]. pose proof (low7_range (byte_to_Z b)) as Hb.
  replace (7 * Z.of_nat (S (length bs))) with (7 + 7 * Z.of_nat (length bs))
    by lia.
  rewrite Z.pow_add_r by lia. change (2 ^ 7) with 128. lia.
Qed.

Lemma le_base128_app (a b : bytes) :
  le_base128 (a ++ b)
  = le_base128 a + le_base128 b * 2 ^ (7 * Z.of_nat (length a)).
Proof.
  induction a as [|x a IH]; cbn [app le_base128 length].
  - change (2 ^ (7 * Z.of_nat 0)) with 1. lia.
  - rewrite IH.
    replace (7 * Z.of_nat (S (length a))) with (7 + 7 * Z.of_nat (length a))
      by lia.
    rewrite Z.pow_add_r by lia. change (2 ^ 7) with 128. ring.
Qed.

(** The loop on well-formed input: continuation bytes, then either a
    final byte and anything, or the end of the buffer. *)
Lemma decode_varint_loop_groups (body : bytes) :
  Forall continues body ->
  forall (tail : bytes) (acc shift : Z) (consumed : nat),
    0 <= shift -> 0 <= acc < 2 ^ shift ->
    decode_varint_loop (body ++ tail) acc shift consumed
    = decode_varint_loop tail (acc + le_base128 body * 2 ^ shift)
        (shift + 7 * Z.of_nat (length body)) (consumed + length body).
Proof.
  intros Hb. induction Hb as [|b body Hc _ IH]; intros tail acc shift consumed Hs Ha.
  - cbn [app le_base128 length]. f_equal; lia.
  - cbn [app decode_varint_loop le_base128 length].
    pose proof (byte_to_Z_range b) as Hr. unfold continues in Hc.
    pose proof (low7_range (byte_to_Z b)) as Hl.
    pose proof (le_base128_bounds body) as Hbody.
    assert (Z.land (byte_to_Z b) 128 <> 0) as Hbit.
    { intros H0.
      assert (Z.testbit (Z.land (byte_to_Z b) 128) 7 = true) as Ht.
      { rewrite Z.land_spec. change 128 with (2 ^ 7).
        rewrite Z.pow2_bits_true by lia. rewrite andb_true_r.
        rewrite Z.testbit_true by lia.
        change (2 ^ 7) with 128.
        Z.to_euclidean_division_equations; lia. }
      rewrite H0, Z.bits_0 in Ht. discriminate. }
    apply Z.eqb_neq in Hbit. rewrite Hbit.
    rewrite lor_shiftl_add by lia.
    rewrite IH.
    + f_equal; [|lia|lia].
      rewrite Z.pow_add_r by lia. change (2 ^ 7) with 128. ring.
    + lia.
    + rewrite Z.pow_add_r by lia. change (2 ^ 7) with 128. nia.
Qed.

Lemma decode_varint_loop_value (rest : bytes) :
  forall (acc shift : Z) (consumed : nat),
    0 <= shift -> 0 <= acc < 2 ^ shift ->
    0 <= fst (decode_varint_loop rest acc shift consumed)
      < 2 ^ (shift
             + 7 * (Z.of_nat (snd (decode_varint_loop rest acc shift consumed))
                    - Z.of_nat consumed)).
Proof.
  induction rest as [|b rest IH]; intros acc shift consumed Hs Ha.
  - cbn [decode_varint_loop fst snd].
    replace (shift + 7 * (Z.of_nat consumed - Z.of_nat consumed)) with shift
      by lia.
    exact Ha.
  - cbn [decode_varint_loop].
    pose proof (low7_range (byte_to_Z b)) as Hl.
    rewrite lor_shiftl_add by lia.
    assert (0 <= acc + Z.land (byte_to_Z b) 127 * 2 ^ shift < 2 ^ (shift + 7))
      as Hacc by (rewrite Z.pow_add_r by lia; change (2 ^ 7) with 128; nia).
    destruct (Z.land (byte_to_Z b) 128 =? 0).
    + cbn [fst snd].
      replace (shift + 7 * (Z.of_nat (S consumed) - Z.of_nat consumed))
        with (shift + 7) by lia.
      exact Hacc.
    + specialize (IH _ (shift + 7) (S consumed) ltac:(lia) Hacc).
      replace (shift + 7 * (Z.of_nat (snd (decode_varint_loop rest
                 (acc + Z.land (byte_to_Z b) 127 * 2 ^ shift) (shift + 7)
                 (S consumed))) - Z.of_nat consumed))
        with (shift + 7 + 7 * (Z.of_nat (snd (decode_varint_loop rest
                 (acc + Z.land (byte_to_Z b) 127 * 2 ^ shift) (shift + 7)
                 (S consumed))) - Z.of_nat (S consumed))) by lia.
      exact IH.
Qed.

(** X1. [decode_varint] never reads past the end of the buffer: it
    consumes at least one byte when there is one at [offset] and never
    more than the bytes from [offset] on (none at or past the end), and
    the value is non-negative and below [2^(7 * consumed)]. *)
Theorem decode_varint_bounds (data : bytes) (offset : nat) :
  (Nat.min 1 (length data - offset)
   <= snd (decode_varint data offset) <= length data - offset)%nat
  /\ 0 <= fst (decode_varint data offset)
       < 2 ^ (7 * Z.of_nat (snd (decode_varint data offset))).
Proof.
  unfold decode_varint. split.
  - pose proof (decode_varint_loop_consumed (drop offset data) 0 0 0) as H.
    rewrite length_drop in H. lia.
  - pose proof (decode_varint_loop_value (drop offset data) 0 0 0
                  ltac:(lia) ltac:(simpl; lia)) as H.
    replace (7 * Z.of_nat (snd (decode_varint_loop (drop offset data) 0 0 0)))
      with (0 + 7 * (Z.of_nat (snd (decode_varint_loop (drop offset data) 0 0 0))
                     - Z.of_nat 0)) by lia.
    exact H.
Qed.

(** X2. A varint is decoded where it lies and whatever follows it: on
    continuation bytes [body] (bit 7 set) followed by a [final] byte
    (bit 7 clear), at any offset and before any bytes, [decode_varint]
    returns the value of the 7-bit groups, low-order group first, and the
    count of the bytes of the varint, however long it is. *)
Theorem decode_varint_terminated (pre body : bytes) (final : byte)
  (post : bytes) :
  Forall continues body -> byte_to_Z final < 128 ->
  decode_varint (pre ++ body ++ final :: post) (length pre)
  = (le_base128 (body ++ [final]), S (length body)).
Proof.
  intros Hb Hf. unfold decode_varint.
  rewrite drop_app_length.
  rewrite decode_varint_loop_groups by (assumption || simpl; lia).
  cbn [decode_varint_loop].
  pose proof (byte_to_Z_range final) as Hr.
  rewrite bit7_small by lia. cbn [Z.eqb].
  pose proof (le_base128_bounds body) as Hbody.
  rewrite lor_shiftl_add.
  - f_equal. rewrite le_base128_app. cbn [le_base128].
    change (2 ^ 0) with 1. rewrite !Z.add_0_l. ring.
  - lia.
  - change (2 ^ 0) with 1. rewrite !Z.add_0_l, Z.mul_1_r. exact Hbody.
  - apply low7_range.
Qed.

Lemma decode_varint_terminated_witness :
  decode_varint ([x00] ++ [xac] ++ x02 :: [xff]) 1 = (300, 2%nat).
Proof.
  apply (decode_varint_terminated [x00] [xac] x02 [xff]).
  - repeat constructor. vm_compute. discriminate.
  - reflexivity.
Defined.

(** X3. A varint that the end of the buffer cuts short is no error: on
    continuation bytes [body] that end the buffer, [decode_varint]
    returns the value of the groups read so far and their count. *)
Theorem decode_varint_truncated (pre body : bytes) :
  Forall continues body ->
  decode_varint (pre ++ body) (length pre) = (le_base128 body, length body).
Proof.
  intros Hb. unfold decode_varint. rewrite drop_app_length.
  rewrite <- (app_nil_r body) at 1.
  rewrite decode_varint_loop_groups by (assumption || simpl; lia).
  cbn [decode_varint_loop]. f_equal. change (2 ^ 0) with 1. lia.
Qed.

Lemma decode_varint_truncated_witness :
  decode_varint ([x0a; x0c; x08] ++ [x80; xc0]) 3 = (8192, 2%nat).
Proof.
  apply (decode_varint_truncated [x0a; x0c; x08] [x80; xc0]).
  repeat constructor; vm_compute; discriminate.
Defined.

(** *** Zig-zag decoding *)

Lemma decode_sint32_even (k : Z) : decode_sint32 (2 * k) = k.
Proof.
  unfold decode_sint32. rewrite land_1_even, Z.shiftr_div_pow2 by lia.
  change (2 ^ 1) with 2. rewrite Z.mul_comm, Z.div_mul by lia.
  apply Z.lxor_0_r.
Qed.

Lemma decode_sint32_odd (k : Z) : decode_sint32 (2 * k + 1) = - k - 1.
Proof.
  unfold decode_sint32. rewrite land_1_odd, Z.shiftr_div_pow2 by lia.
  change (2 ^ 1) with 2.
  replace ((2 * k + 1) / 2) with k
    by (apply (Z.div_unique _ 2 k 1); lia).
  rewrite Z.lxor_m1_r. unfold Z.lnot. lia.
Qed.

(** X4. [decode_sint32] sends the even integer [2k] to [k] and the odd
    integer [2k + 1] to [-k - 1], for every integer: nothing is cut to
    32 bits, so a varint of more than 32 bits gives a value outside the
    signed 32-bit range. *)
Theorem decode_sint32_parity (varint : Z) :
  decode_sint32 varint
  = if Z.even varint then varint / 2 else - (varint / 2) - 1.
Proof.
  destruct (Z.even varint) eqn:E.
  - apply Z.even_spec in E as [k ->].
    rewrite decode_sint32_even, Z.mul_comm, Z.div_mul by lia. reflexivity.
  - assert (Z.odd varint = true) as Ho
        by (rewrite <- Z.negb_even, E; reflexivity).
    apply Z.odd_spec in Ho as [k ->].
    rewrite decode_sint32_odd.
    replace ((2 * k + 1) / 2) with k
      by (apply (Z.div_unique _ 2 k 1); lia).
    lia.
Qed.

(** X5. On the unsigned 32-bit integers [decode_sint32] is the inverse
    of the zig-zag encoding on both sides: the result is a signed 32-bit
    integer, and encoding it gives the varint back. *)
Theorem encode_sint32_decode_sint32 (varint : Z) :
  0 <= varint < 2 ^ 32 ->
  - 2 ^ 31 <= decode_sint32 varint < 2 ^ 31
  /\ encode_sint32 (decode_sint32 varint) = varint.
Proof.
  intros Hv. destruct (Z.even varint) eqn:E.
  - apply Z.even_spec in E as [k ->]. rewrite decode_sint32_even.
    split; [lia|]. apply encode_sint32_nonneg. lia.
  - assert (Z.odd varint = true) as Ho
        by (rewrite <- Z.negb_even, E; reflexivity).
    apply Z.odd_spec in Ho as [k ->]. rewrite decode_sint32_odd.
    split; [lia|]. rewrite encode_sint32_neg by lia. lia.
Qed.

Lemma encode_sint32_decode_sint32_witness :
  - 2 ^ 31 <= decode_sint32 4294967295 < 2 ^ 31
  /\ encode_sint32 (decode_sint32 4294967295) = 4294967295.
Proof. apply (encode_sint32_decode_sint32 4294967295). lia. Defined.

(** *** The coordinate search, read backwards *)

Lemma semicircles_to_degrees_raises (sc : Z) (e : exn) :
  semicircles_to_degrees sc = Raise e -> e = OverflowError.
Proof.
  unfold semicircles_to_degrees, float_of_int.
  destruct (float_of_Z sc); cbn [bind]; congruence.
Qed.

(** At an index the scan visits, the body of the loop either computes
    what [block_at] describes or raises [OverflowError]. *)
Lemma coordinate_block_at_cases (data : bytes) (j : nat) :
  (j + 2 < length data)%nat ->
  (exists r : option DogPosition,
      block_at data j r /\ coordinate_block_at data j = Ok r)
  \/ coordinate_block_at data j = Raise OverflowError.
Proof.
  intros Hj.
  assert (forall r, block_at data j r ->
            exists r : option DogPosition,
              block_at data j r /\ coordinate_block_at data j = Ok r) as Hok.
  { intros r Hr. exists r. split; [exact Hr|].
    apply coordinate_block_at_spec; assumption. }
  destruct (decide (occurs_at BLOCK_MARKER data j)) as [Hm|Hm];
    [|left; apply (Hok None), block_no_marker, Hm].
  destruct (decide (occurs_at [0x10] data (lon_marker_offset data j)))
    as [Hl|Hl]; [|left; apply (Hok None), block_no_longitude; assumption].
  destruct (block_lat data j) as [lat_deg|e1] eqn:Elat.
  - destruct (block_lon data j) as [lon_deg|e2] eqn:Elon.
    + left. destruct (in_bounds lat_deg lon_deg) eqn:Ein.
      * eapply Hok, block_valid; [split| | |]; eassumption.
      * eapply (Hok None), block_out_of_range; [split| | |]; eassumption.
    + right. pose proof (semicircles_to_degrees_raises _ _ Elon) as ->.
      unfold coordinate_block_at.
      rewrite block_marker_at_spec by exact Hj.
      rewrite bool_decide_eq_true_2 by exact Hm. cbn [bind negb].
      unfold block_lat, block_lon, lon_marker_offset in *.
      destruct (decode_varint data (j + 3)) as [lat_val lat_len].
      cbn [fst snd] in *.
      rewrite guarded_ne_test, bool_decide_eq_true_2 by exact Hl.
      cbn [bind negb].
      destruct (decode_varint data (j + 3 + lat_len + 1))
        as [lon_val lon_len].
      cbn [fst snd] in *. rewrite Elat, Elon. reflexivity.
  - right. pose proof (semicircles_to_degrees_raises _ _ Elat) as ->.
    unfold coordinate_block_at.
    rewrite block_marker_at_spec by exact Hj.
    rewrite bool_decide_eq_true_2 by exact Hm. cbn [bind negb].
    unfold block_lat, block_lon, lon_marker_offset in *.
    destruct (decode_varint data (j + 3)) as [lat_val lat_len].
    cbn [fst snd] in *.
    rewrite guarded_ne_test, bool_decide_eq_true_2 by exact Hl.
    cbn [bind negb].
    destruct (decode_varint data (j + 3 + lat_len + 1))
      as [lon_val lon_len].
    cbn [fst snd] in *. rewrite Elat. reflexivity.
Qed.

Lemma coordinate_block_at_inv (data : bytes) (j : nat)
  (r : option DogPosition) :
  (j + 2 < length data)%nat ->
  coordinate_block_at data j = Ok r -> block_at data j r.
Proof.
  intros Hj Hr.
  destruct (coordinate_block_at_cases data j Hj) as [(r' & Hb & E)|E];
    congruence.
Qed.

(** What a scan of the indices [seq a n] returns tells what they hold. *)
Lemma scan_coordinates_inv (data : bytes) (n a : nat) :
  (a + n + 2 <= length data)%nat ->
  match scan_coordinates data (seq a n) with
  | Ok (Some p) =>
      exists j : nat,
        (a <= j < a + n)%nat /\ block_at data j (Some p)
        /\ forall j' : nat, (a <= j' < j)%nat -> block_at data j' None
  | Ok None => forall j : nat, (a <= j < a + n)%nat -> block_at data j None
  | Raise e => e = OverflowError
  end.
Proof.
  revert a. induction n as [|n IH]; intros a Ha.
  - simpl. intros j Hj. lia.
  - cbn [seq scan_coordinates].
    destruct (coordinate_block_at_cases data a ltac:(lia))
      as [([p|] & Hb & ->)| ->]; cbn [bind].
    + exists a. split; [lia|]. split; [exact Hb|]. intros j' Hj'. lia.
    + specialize (IH (S a) ltac:(lia)).
      destruct (scan_coordinates data (seq (S a) n)) as [[p|]|e].
      * destruct IH as (j & Hj & Hp & Hbefore).
        exists j. split; [lia|]. split; [exact Hp|].
        intros j' Hj'. destruct (decide (j' = a)) as [->|Hne];
          [exact Hb | apply Hbefore; lia].
      * intros j Hj. destruct (decide (j = a)) as [->|Hne];
          [exact Hb | apply IH; lia].
      * exact IH.
    + reflexivity.
Qed.

Lemma find_collar_inv (data : bytes) (idxs : list nat) :
  Forall (fun i => (i + 2 < length data)%nat) idxs ->
  find_collar data idxs = Ok true ->
  exists i : nat, i ∈ idxs /\ occurs_at COLLAR_MARKER data i.
Proof.
  intros Hr. induction Hr as [|i idxs Hi _ IH]; [discriminate|].
  cbn [find_collar]. rewrite collar_marker_at_spec by exact Hi. cbn [bind].
  destruct (decide (occurs_at COLLAR_MARKER data i)) as [Ho|Ho].
  - intros _. exists i. split; [left|exact Ho].
  - rewrite bool_decide_eq_false_2 by exact Ho. intros H.
    destruct (IH H) as (i' & Hin & Ho'). exists i'. split; [right|]; assumption.
Qed.

(** The guards and the scan of [parse_ble_notification], one after the
    other. *)
Lemma parse_ble_notification_cases (data : bytes) :
  (len data < 40 /\ parse_ble_notification data = Ok None)
  \/ (40 <= len data /\ ~ collar_marked data
      /\ parse_ble_notification data = Ok None)
  \/ (40 <= len data /\ collar_marked data
      /\ parse_ble_notification data
         = scan_coordinates data (seq 0 (length data - 15))).
Proof.
  unfold parse_ble_notification.
  destruct (Z.ltb_spec (len data) 40) as [Hshort|Hlen]; [left; auto|right].
  pose proof (collar_indices_in_range data Hlen) as Hr.
  destruct (find_collar_total data _ Hr) as [[|] E].
  - right. split; [exact Hlen|]. split.
    + destruct (find_collar_inv data _ Hr E) as (i & Hi & Ho).
      exists i. split; [apply elem_of_range; exact Hi | exact Ho].
    + rewrite E. cbn [bind negb]. unfold range. f_equal. f_equal.
      unfold len. lia.
  - left. split; [exact Hlen|]. split; [|rewrite E; reflexivity].
    intros Hm. rewrite (find_collar_marked data Hlen Hm) in E. discriminate.
Qed.

(** X6. The only exception [parse_ble_notification] raises is
    [OverflowError], from the conversion of a decoded varint to a float:
    no index is ever out of range, whatever the payload. *)
Theorem parse_ble_notification_raises (data : bytes) (e : exn) :
  parse_ble_notification data = Raise e -> e = OverflowError.
Proof.
  destruct (parse_ble_notification_cases data)
    as [(_ & ->)|[(_ & _ & ->)|(Hlen & _ & ->)]]; [discriminate..|].
  pose proof (scan_coordinates_inv data (length data - 15) 0) as H.
  intros E. rewrite E in H. apply H. unfold len in Hlen. lia.
Qed.

Lemma parse_ble_notification_raises_witness :
  parse_ble_notification overflow_packet = Raise OverflowError.
Proof.
  assert (exists e, parse_ble_notification overflow_packet = Raise e)
    as [e He] by (eexists; vm_compute; reflexivity).
  rewrite He. f_equal.
  exact (parse_ble_notification_raises overflow_packet e He).
Defined.

(** X7. What [parse_ble_notification] returns tells what the payload
    holds. A position comes from a payload of at least 40 bytes that
    carries the collar marker, and it is the position of a valid block at
    an index [j < len(payload) - 15] before which every index is a
    rejected candidate; [None] comes from a payload that is shorter than
    40 bytes, or without the collar marker, or in which every index below
    [len(payload) - 15] is a rejected candidate. *)
Theorem parse_ble_notification_inv (data : bytes) :
  (forall p : DogPosition,
      parse_ble_notification data = Ok (Some p) ->
      40 <= len data /\ collar_marked data
      /\ exists j : nat,
          Z.of_nat j < len data - 15 /\ block_at data j (Some p)
          /\ forall j' : nat, (j' < j)%nat -> block_at data j' None)
  /\ (parse_ble_notification data = Ok None ->
      len data < 40 \/ ~ collar_marked data
      \/ forall j : nat, Z.of_nat j < len data - 15 -> block_at data j None).
Proof.
  pose proof (scan_coordinates_inv data (length data - 15) 0) as H.
  destruct (parse_ble_notification_cases data)
    as [(Hshort & ->)|[(_ & Hm & ->)|(Hlen & Hm & ->)]].
  - split; [discriminate|]. intros _. left. exact Hshort.
  - split; [discriminate|]. intros _. right. left. exact Hm.
  - split.
    + intros p E. rewrite E in H.
      destruct H as (j & Hj & Hp & Hbefore); [unfold len in Hlen; lia|].
      split; [exact Hlen|]. split; [exact Hm|].
      exists j. split; [unfold len; lia|]. split; [exact Hp|].
      intros j' Hj'. apply Hbefore. lia.
    + intros E. rewrite E in H. right. right. intros j Hj.
      apply H; unfold len in *; lia.
Qed.

Lemma parse_ble_notification_inv_witness :
  (40 <= len collar_packet /\ collar_marked collar_packet
   /\ exists j : nat,
       Z.of_nat j < len collar_packet - 15
       /\ block_at collar_packet j (Some sample_position)
       /\ forall j' : nat, (j' < j)%nat -> block_at collar_packet j' None)
  /\ (len sample_block < 40 \/ ~ collar_marked sample_block
      \/ forall j : nat,
          Z.of_nat j < len sample_block - 15 -> block_at sample_block j None).
Proof.
  split.
  - apply (proj1 (parse_ble_notification_inv collar_packet) sample_position).
    vm_compute. reflexivity.
  - apply (proj2 (parse_ble_notification_inv sample_block)).
    vm_compute. reflexivity.
Defined.

(** X8. A position that [parse_ble_notification] returns has passed the
    sanity check, [-90 <= lat <= 90] and [-180 <= lon <= 180]; its
    timestamp is not negative; and its altitude, speed and heading are
    never filled in. *)
Theorem parse_ble_notification_position (data : bytes) (p : DogPosition) :
  parse_ble_notification data = Ok (Some p) ->
  in_bounds (lat p) (lon p) = true
  /\ 0 <= Bridge.timestamp p
  /\ altitude p = None /\ speed p = None /\ heading p = None.
Proof.
  intros E.
  destruct (parse_ble_notification_cases data)
    as [(_ & E')|[(_ & _ & E')|(Hlen & _ & E')]]; [congruence..|].
  pose proof (scan_coordinates_inv data (length data - 15) 0) as H.
  rewrite <- E', E in H.
  destruct H as (j & _ & Hp & _); [unfold len in Hlen; lia|].
  inversion Hp as [| | |lat_deg lon_deg _ _ _ Hin]; subst. cbn.
  split; [exact Hin|]. split; [|auto].
  unfold block_timestamp. destruct (decide _); [|lia].
  apply decode_varint_loop_value; simpl; lia.
Qed.

Lemma parse_ble_notification_position_witness :
  in_bounds (lat sample_position) (lon sample_position) = true
  /\ 0 <= Bridge.timestamp sample_position
  /\ altitude sample_position = None /\ speed sample_position = None
  /\ heading sample_position = None.
Proof.
  apply (parse_ble_notification_position collar_packet sample_position).
  vm_compute. reflexivity.
Defined.

(** *** Fragment headers *)

Lemma len_cons {A : Type} (x : A) (l : list A) : len (x :: l) = 1 + len l.
Proof. unfold len. cbn [length]. lia. Qed.

Lemma len_nonneg {A : Type} (l : list A) : 0 <= len l.
Proof. unfold len. lia. Qed.

Lemma high_bit_test (b : byte) :
  negb (Z.land (byte_to_Z b) 0x80 =? 0) = (128 <=? byte_to_Z b).
Proof. destruct b; reflexivity. Qed.

(** [extract_command] on a payload of three bytes or more. *)
Lemma extract_command_payload (b0 b1 p0 : byte) (rest : bytes) :
  extract_command (b0 :: b1 :: p0 :: rest)
  = match p0, rest with
    | x00, cat :: id :: _ =>
        Ok ((if 128 <=? byte_to_Z b0 then "FRAG>" +:+ command_label cat id
             else command_label cat id),
            false, Some (byte_to_Z cat, byte_to_Z id), frag_header b0 b1)
    | _, _ =>
        if 128 <=? byte_to_Z b0
        then Ok ("FRAG_DATA[0x" +:+ format_02X (byte_to_Z p0) +:+ "]", true,
                 None, frag_header b0 b1)
        else Ok ("DATA[0x" +:+ format_02X (byte_to_Z p0) +:+ "]", false,
                 None, frag_header b0 b1)
    end.
Proof.
  unfold extract_command.
  pose proof (len_nonneg rest) as Hrest.
  rewrite !len_cons.
  destruct (Z.ltb_spec (1 + (1 + (1 + len rest))) 2) as [|_]; [lia|].
  cbn [index lookup list_lookup bind drop]. rewrite len_cons.
  destruct (Z.eqb_spec (1 + len rest) 0) as [|_]; [lia|].
  rewrite high_bit_test. unfold and_then, eq_at.
  cbn [index lookup list_lookup bind].
  destruct (Z.eqb_spec (byte_to_Z p0) 0) as [Hp|Hp].
  - assert (p0 = x00) as -> by (destruct p0; try reflexivity; discriminate).
    destruct rest as [|cat [|id rest]].
    + cbn. reflexivity.
    + cbn. reflexivity.
    + rewrite !len_cons.
      destruct (Z.leb_spec 3 (1 + (1 + (1 + len rest)))) as [_|];
        [|pose proof (len_nonneg rest); lia].
      cbn [index lookup list_lookup bind]. reflexivity.
  - cbn [bind index lookup list_lookup].
    destruct p0; try reflexivity. exfalso. apply Hp. reflexivity.
Qed.


(** X10. A command start is recognised whatever the two header bytes
    are: bit 7 of the first byte only puts [FRAG>] before the label, and
    neither the other bits nor the sequence byte change the label or the
    command tuple. *)
Theorem extract_command_fragment (b0 seq cat id : byte) (rest : bytes) :
  extract_command (b0 :: seq :: x00 :: cat :: id :: rest)
  = Ok ((if 128 <=? byte_to_Z b0 then "FRAG>" +:+ command_label cat id
         else command_label cat id),
        false, Some (byte_to_Z cat, byte_to_Z id), frag_header b0 seq).
Proof. apply extract_command_payload. Qed.

(** X11. Short packets are labelled, not rejected with an error: fewer
    than two bytes give [TOO_SHORT] with an empty header text, the two
    header bytes alone give [EMPTY_HDR] even with bit 7 set, and a
    payload that starts with [0x00] but has fewer than three bytes is
    data, not a command. *)
Theorem extract_command_short (b0 b1 cat : byte) :
  extract_command [] = Ok ("TOO_SHORT", false, None, "")
  /\ extract_command [b0] = Ok ("TOO_SHORT", false, None, "")
  /\ extract_command [b0; b1]
     = Ok ("EMPTY_HDR", false, None, frag_header b0 b1)
  /\ extract_command [b0; b1; x00]
     = Ok ((if 128 <=? byte_to_Z b0 then "FRAG_DATA[0x00]" else "DATA[0x00]"),
           (128 <=? byte_to_Z b0), None, frag_header b0 b1)
  /\ extract_command [b0; b1; x00; cat]
     = Ok ((if 128 <=? byte_to_Z b0 then "FRAG_DATA[0x00]" else "DATA[0x00]"),
           (128 <=? byte_to_Z b0), None, frag_header b0 b1).
Proof.
  split; [reflexivity|]. split; [reflexivity|]. split; [reflexivity|].
  rewrite !extract_command_payload.
  destruct (128 <=? byte_to_Z b0); auto.
Qed.

(** *** Captures *)

Lemma parse_records_unfold (f : bytes) (packets : list packet) :
  parse_records f packets
  = match read_record f with
    | None => Ok packets
    | Some (f', Raise e) => Raise e
    | Some (f', Ok None) => parse_records f' packets
    | Some (f', Ok (Some pkt)) => parse_records f' (packets ++ [pkt])
    end.
Proof.
  funelim (parse_records f packets);
    match goal with H : read_record _ = _ |- _ => rewrite H end;
    reflexivity.
Qed.

Lemma be_uint_snoc (bs : bytes) (b : byte) :
  be_uint (bs ++ [b]) = be_uint bs * 256 + byte_to_Z b.
Proof. unfold be_uint. rewrite fold_left_app. reflexivity. Qed.

Lemma be_uint_bounds (bs : bytes) :
  0 <= be_uint bs < 256 ^ Z.of_nat (length bs).
Proof.
  induction bs as [|b bs IH] using rev_ind;
    [change (0 <= 0 < 1); lia|].
  rewrite be_uint_snoc, length_app. cbn [length].
  pose proof (byte_to_Z_range b) as Hb.
  replace (Z.of_nat (length bs + 1)) with (Z.of_nat (length bs) + 1) by lia.
  rewrite Z.pow_add_r by lia. change (256 ^ 1) with 256. lia.
Qed.

Lemma be_uint_slice_bounds (bs : bytes) (a b : nat) :
  0 <= be_uint (slice bs a b) < 256 ^ Z.of_nat (b - a).
Proof.
  pose proof (be_uint_bounds (slice bs a b)) as H.
  assert (256 ^ Z.of_nat (length (slice bs a b)) <= 256 ^ Z.of_nat (b - a)).
  { apply Z.pow_le_mono_r; [lia|]. unfold slice. rewrite length_take. lia. }
  lia.
Qed.

Lemma le_uint_slice_bounds (bs : bytes) (a b : nat) :
  0 <= le_uint (slice bs a b) < 256 ^ Z.of_nat (b - a).
Proof.
  unfold le_uint. pose proof (be_uint_bounds (rev (slice bs a b))) as H.
  rewrite length_rev in H.
  assert (256 ^ Z.of_nat (length (slice bs a b)) <= 256 ^ Z.of_nat (b - a)).
  { apply Z.pow_le_mono_r; [lia|]. unfold slice. rewrite length_take. lia. }
  lia.
Qed.

Lemma index_in_range (data : bytes) (i : nat) :
  Z.of_nat i < len data -> exists b : byte, index data i = Ok (byte_to_Z b).
Proof.
  intros Hi. unfold index, len in *.
  destruct (lookup_lt_is_Some_2 data i) as [b ->]; [lia|]. eauto.
Qed.

(** What [classify_record] gives. *)
Lemma classify_record_cases (ts flags : Z) (data : bytes) :
  0 <= ts < 2 ^ 64 ->
  match classify_record ts flags data with
  | Ok (Some p) =>
      packet_wf p /\ ts_us p = ts /\ 12 <= len data
      /\ BtsnoopCompare.data p = drop 12 data
      /\ is_received p = Z.odd flags
  | Ok None => ts <= DATETIME_MAX
  | Raise e => e = OverflowError /\ DATETIME_MAX < ts
  end.
Proof.
  intros Hts. unfold classify_record, epoch_plus_microseconds.
  destruct (Z.leb_spec ts DATETIME_MAX) as [Hmax|Hmax]; [|split; [reflexivity|lia]].
  cbn [bind].
  destruct (Z.ltb_spec (len data) 10) as [|H10]; [exact Hmax|].
  destruct (index_in_range data 0) as [b0 ->]; [lia|]. cbn [bind].
  destruct (negb (byte_to_Z b0 =? 2)); [exact Hmax|].
  destruct (negb (le_uint (slice data 7 9) =? 4)); [exact Hmax|].
  destruct (index_in_range data 9) as [b9 ->]; [lia|]. cbn [bind].
  pose proof (le_uint_slice_bounds data 10 12) as Hh.
  change (256 ^ Z.of_nat (12 - 10)) with (2 ^ 16) in Hh.
  assert ((Z.land flags 1 =? 1) = Z.odd flags) as Hodd.
  { change 1 with (Z.ones 1) at 1. rewrite Z.land_ones by lia.
    change (2 ^ 1) with 2. rewrite Zmod_odd. destruct (Z.odd flags); reflexivity. }
  destruct ((byte_to_Z b9 =? 18) || (byte_to_Z b9 =? 82)) eqn:Ew.
  - destruct (Z.ltb_spec (len data) 12) as [|H12]; [exact Hmax|].
    unfold packet_wf. cbn -[le_uint slice len drop Z.pow].
    assert (byte_to_Z b9 = 18 \/ byte_to_Z b9 = 82) as Hop
        by (apply orb_true_iff in Ew as [Ew|Ew]; apply Z.eqb_eq in Ew; auto).
    repeat match goal with |- _ /\ _ => split end;
      try lia; try reflexivity; try exact Hodd.
    left. split; [reflexivity|exact Hop].
  - destruct (Z.eqb_spec (byte_to_Z b9) 27) as [En|En]; [|exact Hmax].
    destruct (Z.ltb_spec (len data) 12) as [|H12]; [exact Hmax|].
    unfold packet_wf. cbn -[le_uint slice len drop Z.pow].
    repeat match goal with |- _ /\ _ => split end;
      try lia; try reflexivity; try exact Hodd.
    right. split; [reflexivity|exact En].
Qed.

(** What one turn of the loop of [parse_btsnoop] gives. *)
Lemma read_record_cases (f f' : bytes) (r : result (option packet)) :
  read_record f = Some (f', r) ->
  (24 + length f' <= length f)%nat
  /\ match r with
     | Ok (Some p) => packet_wf p /\ (36 + length f' <= length f)%nat
     | Ok None => True
     | Raise e => e = OverflowError
     end.
Proof.
  unfold read_record, read. intros H.
  destruct (len (take (Z.to_nat 24) f) <? 24) eqn:E; [discriminate|].
  apply Z.ltb_ge in E. unfold len in E. rewrite length_take in E.
  set (hdr := take (Z.to_nat 24) f) in *.
  set (incl_len := be_uint (slice hdr 4 8)) in *.
  pose proof (be_uint_slice_bounds hdr 4 8) as Hincl. fold incl_len in Hincl.
  pose proof (be_uint_slice_bounds hdr 16 24) as Hts.
  change (256 ^ Z.of_nat (24 - 16)) with (2 ^ 64) in Hts.
  destruct (Z.ltb_spec (len (take (Z.to_nat incl_len) (drop (Z.to_nat 24) f)))
              incl_len) as [|Hdata]; [discriminate|].
  injection H as <- <-.
  unfold len in Hdata. rewrite length_take, length_drop in Hdata.
  rewrite !length_drop. split; [lia|].
  pose proof (classify_record_cases (be_uint (slice hdr 16 24))
                (be_uint (slice hdr 8 12))
                (take (Z.to_nat incl_len) (drop (Z.to_nat 24) f)) Hts) as Hc.
  destruct (classify_record _ _ _) as [[p|]|e]; [|exact I|apply Hc].
  destruct Hc as (Hwf & _ & H12 & _). split; [exact Hwf|].
  unfold len in H12. rewrite length_take, length_drop in H12. lia.
Qed.

(** The loop of [parse_btsnoop] by the packets it had and the bytes left. *)
Lemma parse_records_cases (n : nat) :
  forall (f : bytes) (packets : list packet),
    (length f <= n)%nat -> Forall packet_wf packets ->
    match parse_records f packets with
    | Ok out =>
        Forall packet_wf out
        /\ (36 * length out <= 36 * length packets + length f)%nat
    | Raise e => e = OverflowError
    end.
Proof.
  induction n as [|n IH]; intros f packets Hn Hwf;
    rewrite parse_records_unfold;
    destruct (read_record f) as [[f' r]|] eqn:E;
    try (split; [exact Hwf|lia]);
    destruct (read_record_cases f f' r E) as [Hlen Hr]; [lia|].
  destruct r as [[p|]|e]; [| |exact Hr].
  - destruct Hr as [Hp Hlen'].
    specialize (IH f' (packets ++ [p]) ltac:(lia)
                  ltac:(apply Forall_app; split;
                         [exact Hwf|apply Forall_singleton; exact Hp])).
    destruct (parse_records f' (packets ++ [p])) as [out|e]; [|exact IH].
    destruct IH as [Hout Hsize]. split; [exact Hout|].
    rewrite length_app in Hsize. cbn [length] in Hsize. lia.
  - specialize (IH f' packets ltac:(lia) Hwf).
    destruct (parse_records f' packets) as [out|e]; [|exact IH].
    destruct IH as [Hout Hsize]. split; [exact Hout|]. lia.
Qed.

Lemma parse_btsnoop_cases (filepath : string) (content : bytes) :
  ((length content < 16)%nat
   /\ parse_btsnoop filepath content
      = (["ERROR: File too short for header: " +:+ filepath], Ok []))
  \/ ((16 <= length content)%nat
      /\ parse_btsnoop filepath content
         = ([], parse_records (drop 16 content) [])).
Proof.
  unfold parse_btsnoop, read.
  destruct (Z.ltb_spec (len (take (Z.to_nat 16) content)) 16) as [H|H];
    unfold len in H; rewrite length_take in H; [left|right];
    (split; [lia|reflexivity]).
Qed.

Lemma packet_wf_timestamps_u64 (packets : list packet) :
  Forall packet_wf packets -> timestamps_u64 packets.
Proof.
  unfold timestamps_u64. intros Hwf. eapply Forall_impl; [exact Hwf|].
  intros p (_ & _ & _ & H & _). exact H.
Qed.

(** X12. Every packet that [parse_btsnoop] returns is well formed: a
    write has the ATT opcode [0x12] or [0x52] and a notification [0x1B],
    the size is the length of the data, the handle is an unsigned 16-bit
    integer, and the timestamp is an unsigned 64-bit count of
    microseconds that [datetime] can hold. *)
Theorem parse_btsnoop_packets_wf (filepath : string) (content : bytes)
  (out : list string) (packets : list packet) :
  parse_btsnoop filepath content = (out, Ok packets) ->
  Forall packet_wf packets.
Proof.
  intros E.
  destruct (parse_btsnoop_cases filepath content) as [[_ E']|[_ E']];
    rewrite E' in E; injection E as _ E.
  - subst packets. constructor.
  - pose proof (parse_records_cases _ (drop 16 content) []
                  (Nat.le_refl _) (Forall_nil_2 _)) as H.
    rewrite E in H. apply H.
Qed.

Lemma parse_btsnoop_packets_wf_witness :
  Forall packet_wf sample_packets.
Proof.
  apply (parse_btsnoop_packets_wf "btsnoop_hci.log" sample_capture []).
  vm_compute. reflexivity.
Defined.

(** X13. The packets of a capture can always be cut in sessions: on what
    [parse_btsnoop] returns, [detect_sessions] raises nothing and gives
    index ranges that follow one another from the first packet to the
    last. *)
Theorem parse_btsnoop_detect_sessions (filepath : string) (content : bytes)
  (out : list string) (packets : list packet) :
  parse_btsnoop filepath content = (out, Ok packets) ->
  exists sessions : list (nat * nat),
    detect_sessions packets = Ok sessions
    /\ contiguous_from 0 sessions (length packets).
Proof.
  intros E.
  assert (timestamps_u64 packets) as Hu.
  { apply packet_wf_timestamps_u64.
    destruct (parse_btsnoop_cases filepath content) as [[_ E']|[_ E']];
      rewrite E' in E; injection E as _ E.
    - subst packets. constructor.
    - pose proof (parse_records_cases _ (drop 16 content) []
                    (Nat.le_refl _) (Forall_nil_2 _)) as H.
      rewrite E in H. apply H. }
  destruct packets as [|p0 packets'] eqn:Ep.
  - exists []. split; reflexivity.
  - rewrite <- Ep in *.
    assert (packets <> []) as Hne by (rewrite Ep; discriminate).
    eexists. split; [apply detect_sessions_spec; assumption|].
    pose proof (sessions_of_cuts_contiguous 0 _ _
                  (detect_sessions_cuts_increasing packets Hne)) as Hc.
    replace (S (length packets - 1)) with (length packets) in Hc
      by (rewrite Ep; simpl; lia).
    exact Hc.
Qed.

Lemma parse_btsnoop_detect_sessions_witness :
  exists sessions : list (nat * nat),
    detect_sessions sample_packets = Ok sessions
    /\ contiguous_from 0 sessions (length sample_packets).
Proof.
  apply (parse_btsnoop_detect_sessions "btsnoop_hci.log" sample_capture []).
  vm_compute. reflexivity.
Defined.

(** X14. The only exception [parse_btsnoop] raises is [OverflowError],
    when the timestamp of a record, be it of no interest otherwise, is
    beyond what [datetime] holds; no index is ever out of range. *)
Theorem parse_btsnoop_raises (filepath : string) (content : bytes)
  (out : list string) (e : exn) :
  parse_btsnoop filepath content = (out, Raise e) -> e = OverflowError.
Proof.
  intros E.
  destruct (parse_btsnoop_cases filepath content) as [[_ E']|[_ E']];
    rewrite E' in E; injection E as _ E; [discriminate|].
  pose proof (parse_records_cases _ (drop 16 content) []
                (Nat.le_refl _) (Forall_nil_2 _)) as H.
  rewrite E in H. exact H.
Qed.

Lemma parse_btsnoop_raises_witness :
  parse_btsnoop "btsnoop_hci.log" overflow_capture
  = ([], Raise OverflowError).
Proof.
  assert (exists e, parse_btsnoop "btsnoop_hci.log" overflow_capture
                    = ([], Raise e))
    as [e He] by (eexists; vm_compute; reflexivity).
  rewrite He. do 2 f_equal.
  exact (parse_btsnoop_raises _ _ _ e He).
Defined.

(** X15. [parse_btsnoop] reads the 16 bytes of the file header and
    never looks at them: two captures that differ in their headers only
    give the same result. *)
Theorem parse_btsnoop_header_ignored (filepath : string)
  (header header' records : bytes) :
  length header = 16%nat -> length header' = 16%nat ->
  parse_btsnoop filepath (header ++ records)
  = parse_btsnoop filepath (header' ++ records).
Proof.
  intros H H'.
  destruct (parse_btsnoop_cases filepath (header ++ records))
    as [[Hs _]|[_ ->]]; [rewrite length_app in Hs; lia|].
  destruct (parse_btsnoop_cases filepath (header' ++ records))
    as [[Hs _]|[_ ->]]; [rewrite length_app in Hs; lia|].
  rewrite <- H at 1. rewrite <- H'. rewrite !drop_app_length. reflexivity.
Qed.

Lemma parse_btsnoop_header_ignored_witness :
  parse_btsnoop "btsnoop_hci.log" (capture_header ++ write_record)
  = parse_btsnoop "btsnoop_hci.log" (replicate 16 x00 ++ write_record).
Proof.
  apply (parse_btsnoop_header_ignored "btsnoop_hci.log" capture_header
           (replicate 16 x00) write_record); reflexivity.
Defined.



(** *** Counting sessions *)




(** *** Degrees *)

Lemma degrees_factor :
  float_div (float_of_Z 180) (float_of_Z 2147483648)
  = S754_finite false 6333186975989760 (-76).
Proof. vm_compute. reflexivity. Qed.

Lemma float_of_Z_90 :
  float_of_Z 90 = S754_finite false 6333186975989760 (-46)
  /\ float_of_Z (-90) = S754_finite true 6333186975989760 (-46)
  /\ float_of_Z 180 = S754_finite false 6333186975989760 (-45)
  /\ float_of_Z (-180) = S754_finite true 6333186975989760 (-45).
Proof. vm_compute. auto. Qed.

(** The product of a normal float by [180.0 / 2147483648.0]: the product
    [P] of the mantissas has [53 + n] bits and the result has the
    mantissa [P / 2^n] or its successor. *)
Lemma float_mul_degrees (s : bool) (mx : positive) (ex : Z) :
  2 ^ 52 <= Zpos mx < 2 ^ 53 -> -52 <= ex <= 971 ->
  exists (m' : positive) (e' n : Z),
    float_mul (S754_finite s mx ex) (S754_finite false 6333186975989760 (-76))
    = S754_finite s m' e'
    /\ (n = 52 \/ n = 53)
    /\ 2 ^ (52 + n) <= Zpos mx * 6333186975989760 < 2 ^ (53 + n)
    /\ ((e' = ex - 76 + n
         /\ Zpos mx * 6333186975989760 / 2 ^ n <= Zpos m'
            <= Zpos mx * 6333186975989760 / 2 ^ n + 1)
        \/ (e' = ex - 76 + n + 1 /\ Zpos m' = 2 ^ 52
            /\ Zpos mx * 6333186975989760 / 2 ^ n = 2 ^ 53 - 1)).
Proof.
  intros Hmx Hex. unfold float_mul, SFmul. rewrite xorb_false_r.
  rewrite Pos2Z.inj_mul.
  set (P := Zpos mx * 6333186975989760).
  change (2 ^ 52) with 4503599627370496 in Hmx.
  change (2 ^ 53) with 9007199254740992 in Hmx.
  assert (exists n : Z, (n = 52 \/ n = 53) /\ 2 ^ (52 + n) <= P < 2 ^ (53 + n))
    as (n & Hn & HP).
  { destruct (Z.lt_ge_cases P (2 ^ 105)) as [Hlt|Hge];
      [exists 52 | exists 53]; (split; [auto|]); simpl Z.add;
      change (2 ^ 104) with 20282409603651670423947251286016 in *;
      change (2 ^ 105) with 40564819207303340847894502572032 in *;
      change (2 ^ 106) with 81129638414606681695789005144064 in *;
      unfold P in *; lia. }
  destruct (binary_round_aux_normal s P (ex + -76) n loc_Exact)
    as (m' & e' & E & _ & He'); [lia | exact HP | lia | lia |].
  exists m', e', n. split; [exact E|]. split; [exact Hn|].
  split; [exact HP|].
  destruct He' as [(-> & Hb & _)|(-> & Hc & Hd & _)]; [left|right];
    (split; [lia|auto]).
Qed.

Lemma float_le_finite (s : bool) (m1 : positive) (e1 : Z) (m2 : positive)
  (e2 : Z) :
  float_le (S754_finite s m1 e1) (S754_finite s m2 e2)
  = if s
    then (e2 <? e1) || ((e2 =? e1) && (Zpos m2 <=? Zpos m1))
    else (e1 <? e2) || ((e1 =? e2) && (Zpos m1 <=? Zpos m2)).
Proof.
  unfold float_le, SFleb, SFcompare. destruct s.
  - change (Pos.compare_cont Eq m1 m2) with (Z.compare (Zpos m1) (Zpos m2)).
    destruct (Z.compare_spec e1 e2), (Z.compare_spec (Zpos m1) (Zpos m2));
      cases_on_index; simpl; try reflexivity; lia.
  - change (Pos.compare_cont Eq m1 m2) with (Z.compare (Zpos m1) (Zpos m2)).
    destruct (Z.compare_spec e1 e2), (Z.compare_spec (Zpos m1) (Zpos m2));
      cases_on_index; simpl; try reflexivity; lia.
Qed.

Lemma digits2_pos_le (p : positive) (n : Z) :
  0 <= n -> Zpos p < 2 ^ n -> 1 <= Zpos (digits2_pos p) <= n.
Proof.
  intros Hn Hp. pose proof (digits2_pos_bounds p) as Hd.
  split; [lia|].
  destruct (Z.le_gt_cases (Zpos (digits2_pos p)) n) as [|Hgt]; [assumption|].
  assert (2 ^ n <= 2 ^ (Zpos (digits2_pos p) - 1))
    by (apply Z.pow_le_mono_r; lia).
  lia.
Qed.

(** The comparison of the magnitude of [p * (180.0 / 2147483648.0)] with
    [90.0] ([t = 30]) or [180.0] ([t = 31]) is the comparison of [p] with
    [2^t]. *)
Lemma degrees_magnitude_test (s : bool) (p : positive) (t : Z) :
  t = 30 \/ t = 31 -> Zpos p < 2 ^ 1023 -> Zpos p <> 2 ^ t ->
  exists (m' : positive) (e' : Z),
    float_mul (binary_round prec emax s p 0)
      (S754_finite false 6333186975989760 (-76))
    = S754_finite s m' e'
    /\ (e' <? t - 76) || ((e' =? t - 76) && (Zpos m' <=? 6333186975989760))
       = (Zpos p <=? 2 ^ t).
Proof.
  intros Ht Hp Hne.
  destruct (digits2_pos_le p 1023 ltac:(lia) Hp) as [Hk1 Hk2].
  pose proof (digits2_pos_bounds p) as Hbits.
  set (k := Zpos (digits2_pos p)) in *.
  destruct (binary_round_integer s p k ltac:(lia) Hbits)
    as (mx & ex & -> & Hmx & Hsmall & Hlarge).
  destruct (float_mul_degrees s mx ex Hmx)
    as (m' & e' & n & -> & Hn & HP & He'); [lia|].
  exists m', e'. split; [reflexivity|].
  assert (k <= t - 2 \/ k = t - 1 \/ k = t \/ k = t + 1 \/ t + 2 <= k)
    as [Hc|[Hc|[Hc|[Hc|Hc]]]] by lia.
  - assert (2 ^ k <= 2 ^ (t - 2)) by (apply Z.pow_le_mono_r; lia).
    assert (2 ^ (t - 2) <= 2 ^ t) by (apply Z.pow_le_mono_r; lia).
    destruct (Hsmall ltac:(lia)) as [-> _].
    destruct Hn as [-> | ->], He' as [(-> & _)|(-> & _)];
      cases_on_index; simpl; try reflexivity; lia.
  - assert (2 ^ k <= 2 ^ t) by (apply Z.pow_le_mono_r; lia).
    destruct (Hsmall ltac:(lia)) as [-> _].
    change (2 ^ 52) with 4503599627370496 in *.
    destruct Hn as [-> | ->], He' as [(-> & _)|(-> & Hm & _)];
      cases_on_index; simpl; try reflexivity; lia.
  - destruct (Hsmall ltac:(lia)) as [-> Emx]. rewrite Emx in *.
    rewrite Hc in *. clear Hsmall Hlarge.
    destruct Ht as [-> | ->];
      [change (2 ^ (30 - 1)) with 536870912 in *;
       change (2 ^ 30) with 1073741824 in *;
       change (2 ^ (53 - 30)) with 8388608 in *
      |change (2 ^ (31 - 1)) with 1073741824 in *;
       change (2 ^ 31) with 2147483648 in *;
       change (2 ^ (53 - 31)) with 4194304 in *];
      change (2 ^ 52) with 4503599627370496 in *;
      change (2 ^ 53) with 9007199254740992 in *;
      (destruct Hn as [-> | ->];
       [change (2 ^ 52) with 4503599627370496 in *
       |change (2 ^ 53) with 9007199254740992 in *]);
      destruct He' as [(-> & Hb)|(-> & Hb1 & Hb2)];
      cases_on_index; simpl; try reflexivity;
      Z.to_euclidean_division_equations; lia.
  - destruct (Hsmall ltac:(lia)) as [-> Emx]. rewrite Emx in *.
    rewrite Hc in *. clear Hsmall Hlarge.
    destruct Ht as [-> | ->];
      [change (2 ^ (30 + 1 - 1)) with 1073741824 in *;
       change (2 ^ (30 + 1)) with 2147483648 in *;
       change (2 ^ 30) with 1073741824 in *;
       change (2 ^ (53 - (30 + 1))) with 4194304 in *
      |change (2 ^ (31 + 1 - 1)) with 2147483648 in *;
       change (2 ^ (31 + 1)) with 4294967296 in *;
       change (2 ^ 31) with 2147483648 in *;
       change (2 ^ (53 - (31 + 1))) with 2097152 in *];
      change (2 ^ 52) with 4503599627370496 in *;
      change (2 ^ 53) with 9007199254740992 in *;
      (destruct Hn as [-> | ->];
       [change (2 ^ 52) with 4503599627370496 in *
       |change (2 ^ 53) with 9007199254740992 in *]);
      destruct He' as [(-> & Hb)|(-> & Hb1 & Hb2)];
      cases_on_index; simpl; try reflexivity;
      Z.to_euclidean_division_equations; lia.
  - assert (2 ^ (t + 1) <= 2 ^ (k - 1)) by (apply Z.pow_le_mono_r; lia).
    assert (2 ^ t < 2 ^ (t + 1)) by (apply Z.pow_lt_mono_r; lia).
    assert (k - 53 <= ex)
      by (destruct (Z.le_gt_cases k 53);
          [destruct (Hsmall ltac:(lia)) as [-> _]|]; lia).
    destruct Hn as [-> | ->], He' as [(-> & _)|(-> & _)];
      cases_on_index; simpl; try reflexivity; lia.
Qed.

Lemma semicircles_to_degrees_test (sc t : Z) :
  t = 30 \/ t = 31 -> - 2 ^ 1023 < sc < 2 ^ 1023 ->
  exists x : float,
    semicircles_to_degrees sc = Ok x
    /\ float_le (S754_finite true 6333186975989760 (t - 76)) x
       && float_le x (S754_finite false 6333186975989760 (t - 76))
       = (- 2 ^ t <=? sc) && (sc <=? 2 ^ t).
Proof.
  intros Ht Hsc. unfold semicircles_to_degrees. rewrite degrees_factor.
  destruct (Z.eq_dec sc (2 ^ t)) as [->|Hne1].
  { destruct Ht as [-> | ->]; eexists;
      (split; [vm_compute; reflexivity|]); vm_compute; reflexivity. }
  destruct (Z.eq_dec sc (- 2 ^ t)) as [->|Hne2].
  { destruct Ht as [-> | ->]; eexists;
      (split; [vm_compute; reflexivity|]); vm_compute; reflexivity. }
  assert (0 < 2 ^ t) by (apply Z.pow_pos_nonneg; lia).
  destruct sc as [|p|p].
  - eexists. split; [reflexivity|].
    destruct (Z.leb_spec (- 2 ^ t) 0), (Z.leb_spec 0 (2 ^ t)); try lia.
    reflexivity.
  - destruct (degrees_magnitude_test false p t Ht ltac:(lia) Hne1)
      as (m' & e' & E & Htest).
    unfold float_of_int.
    change (float_of_Z (Zpos p)) with (binary_round prec emax false p 0).
    destruct (binary_round prec emax false p 0) as [| | |s0 m0 e0] eqn:Er;
      try discriminate.
    cbn [bind]. rewrite E. eexists. split; [reflexivity|].
    rewrite float_le_finite, Htest.
    destruct (Z.leb_spec (- 2 ^ t) (Zpos p)); [reflexivity|lia].
  - destruct (degrees_magnitude_test true p t Ht ltac:(lia)
                ltac:(lia)) as (m' & e' & E & Htest).
    unfold float_of_int.
    change (float_of_Z (Zneg p)) with (binary_round prec emax true p 0).
    destruct (binary_round prec emax true p 0) as [| | |s0 m0 e0] eqn:Er;
      try discriminate.
    cbn [bind]. rewrite E. eexists. split; [reflexivity|].
    rewrite float_le_finite, Htest.
    change (float_le (S754_finite true m' e')
              (S754_finite false 6333186975989760 (t - 76))) with true.
    rewrite andb_true_r.
    destruct (Z.leb_spec (Zpos p) (2 ^ t)), (Z.leb_spec (- 2 ^ t) (Zneg p)),
      (Z.leb_spec (Zneg p) (2 ^ t)); try reflexivity; lia.
Qed.

(** X18. The sanity check on the degrees is a check on the semicircles:
    for a latitude and a longitude below [2^1023] in absolute value the
    conversions raise nothing, and the degrees are within
    [-90 <= lat <= 90] and [-180 <= lon <= 180] if and only if the
    latitude is within [-2^30, 2^30] semicircles and the longitude within
    [-2^31, 2^31]. *)
Theorem in_bounds_semicircles (lat_sc lon_sc : Z) :
  - 2 ^ 1023 < lat_sc < 2 ^ 1023 -> - 2 ^ 1023 < lon_sc < 2 ^ 1023 ->
  exists lat_deg lon_deg : float,
    semicircles_to_degrees lat_sc = Ok lat_deg
    /\ semicircles_to_degrees lon_sc = Ok lon_deg
    /\ in_bounds lat_deg lon_deg
       = (- 2 ^ 30 <=? lat_sc) && (lat_sc <=? 2 ^ 30)
         && (- 2 ^ 31 <=? lon_sc) && (lon_sc <=? 2 ^ 31).
Proof.
  intros Hlat Hlon.
  destruct (semicircles_to_degrees_test lat_sc 30 ltac:(auto) Hlat)
    as (lat_deg & Elat & Hlat_test).
  destruct (semicircles_to_degrees_test lon_sc 31 ltac:(auto) Hlon)
    as (lon_deg & Elon & Hlon_test).
  exists lat_deg, lon_deg. split; [exact Elat|]. split; [exact Elon|].
  unfold in_bounds.
  destruct float_of_Z_90 as (-> & -> & -> & ->).
  change (-46) with (30 - 76). change (-45) with (31 - 76).
  rewrite Hlat_test, <- andb_assoc, Hlon_test, andb_assoc. reflexivity.
Qed.

Lemma in_bounds_semicircles_witness :
  exists lat_deg lon_deg : float,
    semicircles_to_degrees 1073741825 = Ok lat_deg
    /\ semicircles_to_degrees (-2147483648) = Ok lon_deg
    /\ in_bounds lat_deg lon_deg
       = (- 2 ^ 30 <=? 1073741825) && (1073741825 <=? 2 ^ 30)
         && (- 2 ^ 31 <=? -2147483648) && (-2147483648 <=? 2 ^ 31).
Proof.
  apply (in_bounds_semicircles 1073741825 (-2147483648)); lia.
Defined.

(** *** Short payloads *)

Lemma decode_sint32_magnitude (v b : Z) :
  0 <= v < b -> - b < decode_sint32 v < b.
Proof.
  intros Hv. destruct (Z.even v) eqn:E.
  - apply Z.even_spec in E as [k ->]. rewrite decode_sint32_even. lia.
  - assert (Z.odd v = true) as Ho by (rewrite <- Z.negb_even, E; reflexivity).
    apply Z.odd_spec in Ho as [k ->]. rewrite decode_sint32_odd. lia.
Qed.

(** In a payload of at most 149 bytes a varint that starts at the offset
    3 or later has at most 146 bytes, and its zig-zag decoding is below
    [2^1023] in absolute value. *)
Lemma decoded_semicircles_bound (data : bytes) (offset : nat) :
  len data <= 149 -> (3 <= offset)%nat ->
  - 2 ^ 1023 < decode_sint32 (fst (decode_varint data offset)) < 2 ^ 1023.
Proof.
  intros Hlen Hoff. apply decode_sint32_magnitude. unfold decode_varint.
  pose proof (decode_varint_loop_consumed (drop offset data) 0 0 0) as Hc.
  pose proof (decode_varint_loop_value (drop offset data) 0 0 0
                ltac:(lia) ltac:(simpl; lia)) as Hv.
  rewrite length_drop in Hc. unfold len in Hlen.
  set (c := snd (decode_varint_loop (drop offset data) 0 0 0)) in *.
  assert (2 ^ (0 + 7 * (Z.of_nat c - Z.of_nat 0)) <= 2 ^ 1023)
    by (apply Z.pow_le_mono_r; lia).
  lia.
Qed.

Lemma semicircles_to_degrees_total (sc : Z) :
  - 2 ^ 1023 < sc < 2 ^ 1023 ->
  exists x : float, semicircles_to_degrees sc = Ok x.
Proof.
  intros Hsc.
  destruct (semicircles_to_degrees_test sc 30 ltac:(auto) Hsc) as (x & E & _).
  eauto.
Qed.

(** In a payload of at most 149 bytes every index the scan visits is a
    valid block or a rejected candidate. *)
Lemma block_at_total (data : bytes) (j : nat) :
  len data <= 149 -> exists r : option DogPosition, block_at data j r.
Proof.
  intros Hlen.
  destruct (decide (occurs_at BLOCK_MARKER data j)) as [Hm|Hm];
    [|exists None; apply block_no_marker, Hm].
  destruct (decide (occurs_at [0x10] data (lon_marker_offset data j)))
    as [Hl|Hl]; [|exists None; apply block_no_longitude; assumption].
  destruct (semicircles_to_degrees_total
              (decode_sint32 (fst (decode_varint data (j + 3)))))
    as [lat_deg Elat]; [apply decoded_semicircles_bound; [exact Hlen|lia]|].
  destruct (semicircles_to_degrees_total
              (decode_sint32
                 (fst (decode_varint data (lon_marker_offset data j + 1)))))
    as [lon_deg Elon];
    [apply decoded_semicircles_bound;
       [exact Hlen|unfold lon_marker_offset; lia]|].
  destruct (in_bounds lat_deg lon_deg) eqn:Ein.
  - eexists. eapply block_valid; [split| | |]; eassumption.
  - exists None. eapply block_out_of_range; [split| | |]; eassumption.
Qed.

(** X19. On a payload of at most 149 bytes [parse_ble_notification]
    raises nothing: no varint of such a payload is too large for a
    float. *)
Theorem parse_ble_notification_short_total (data : bytes) :
  len data <= 149 ->
  exists r : option DogPosition, parse_ble_notification data = Ok r.
Proof.
  intros Hlen.
  destruct (parse_ble_notification_cases data)
    as [(_ & ->)|[(_ & _ & ->)|(H40 & _ & ->)]]; [eauto..|].
  assert (forall n a : nat,
             (a + n + 2 <= length data)%nat ->
             exists r, scan_coordinates data (seq a n) = Ok r) as Hscan.
  { induction n as [|n IH]; intros a Ha; [eexists; reflexivity|].
    cbn [seq scan_coordinates].
    destruct (block_at_total data a Hlen) as [r Hr].
    rewrite (coordinate_block_at_spec data a r ltac:(lia) Hr). cbn [bind].
    destruct r as [p|]; [eauto|]. apply IH. lia. }
  apply Hscan. unfold len in H40. lia.
Qed.

Lemma parse_ble_notification_short_total_witness :
  exists r : option DogPosition, parse_ble_notification collar_packet = Ok r.
Proof.
  apply (parse_ble_notification_short_total collar_packet).
  vm_compute. discriminate.
Defined.

(** X20. In a payload of at most 149 bytes, a candidate with the marker
    and the [0x10] byte after the latitude is a valid block if and only
    if its latitude is within [-2^30, 2^30] semicircles and its longitude
    within [-2^31, 2^31]. *)
Theorem block_valid_semicircles (data : bytes) (j : nat) :
  len data <= 149 -> structurally_valid data j ->
  (exists p : DogPosition, block_at data j (Some p))
  <-> - 2 ^ 30 <= block_lat_semicircles data j <= 2 ^ 30
      /\ - 2 ^ 31 <= block_lon_semicircles data j <= 2 ^ 31.
Proof.
  intros Hlen Hs.
  destruct (in_bounds_semicircles (block_lat_semicircles data j)
              (block_lon_semicircles data j))
    as (lat_deg & lon_deg & Elat & Elon & Hin);
    [apply decoded_semicircles_bound; [exact Hlen|lia]
    |apply decoded_semicircles_bound;
       [exact Hlen|unfold lon_marker_offset; lia]|].
  assert (in_bounds lat_deg lon_deg = true
          <-> - 2 ^ 30 <= block_lat_semicircles data j <= 2 ^ 30
              /\ - 2 ^ 31 <= block_lon_semicircles data j <= 2 ^ 31) as Hiff.
  { rewrite Hin, !andb_true_iff, !Z.leb_le. tauto. }
  rewrite <- Hiff. split.
  - intros [p Hp].
    inversion Hp as [| | |lat_deg' lon_deg' _ Hlat Hlon Hb]; subst.
    unfold block_lat, block_lon in *.
    unfold block_lat_semicircles, block_lon_semicircles in *.
    congruence.
  - intros Hb. eexists. eapply block_valid; eassumption.
Qed.

Lemma block_valid_semicircles_witness :
  (exists p : DogPosition, block_at collar_packet 25 (Some p))
  <-> - 2 ^ 30 <= block_lat_semicircles collar_packet 25 <= 2 ^ 30
      /\ - 2 ^ 31 <= block_lon_semicircles collar_packet 25 <= 2 ^ 31.
Proof.
  apply (block_valid_semicircles collar_packet 25).
  - vm_compute. discriminate.
  - split; vm_compute; reflexivity.
Defined.

(** *** Hexadecimal dumps *)













(** *** Cursor-on-Target messages *)

(** X22. [generate_cot_xml] raises [ValueError] if and only if the clock
    reads a second from 30 on: the stale time is the current time with
    30 added to the seconds, which [replace] refuses beyond 59. *)
Theorem generate_cot_xml_value_error (now : datetime)
  (position : DogPosition) (callsign uid : string) :
  0 <= second now <= 59 ->
  generate_cot_xml now position callsign uid = None <-> 30 <= second now.
Proof.
  intros Hs. unfold generate_cot_xml, replace_second.
  destruct (Z.leb_spec 0 (second now + 30)) as [_|]; [|lia].
  destruct (Z.leb_spec (second now + 30) 59) as [Hle|Hgt]; cbn [andb].
  - split; [discriminate|lia].
  - split; [lia|reflexivity].
Qed.

Lemma generate_cot_xml_value_error_witness :
  (generate_cot_xml late_reading sample_position DOG_CALLSIGN DOG_UID = None
   <-> 30 <= second late_reading)
  /\ (generate_cot_xml early_reading sample_position DOG_CALLSIGN DOG_UID
      = None
      <-> 30 <= second early_reading).
Proof.
  split.
  - apply (generate_cot_xml_value_error late_reading); simpl; lia.
  - apply (generate_cot_xml_value_error early_reading); simpl; lia.
Defined.
